(** * collector.py: the DataCollector and its JSON storage file

    A shallow embedding of [src/collector.py]: the [Record] dataclass, the
    [DataCollector] class with [__init__], [_load], [add_record] and
    [_save], and the parts of the Python runtime these call
    ([Path.exists], [Path.read_text], [Path.write_text], [json.loads],
    [json.dumps], [dataclasses.asdict], [datetime.isoformat]).

    Conventions.
    - A Python [str] is a list of code points ([Z]); a file holds bytes
      ([Z] in 0..255) and is read and written through the UTF-8 codec.
    - A Python exception is a constructor of [exn]; a call that can raise
      returns a [result].
    - The clock is an input: [add_record] takes the [datetime] that
      [datetime.now()] answers during the call.
    - The platform is POSIX: text is written with line feeds as they are.
      Paths form a flat name space, and a path that names nothing can be
      created.
    - The interpreter's resource limits (recursion depth, the digit limit
      of [int], memory) are not modelled. *)

From Stdlib Require Import ZArith Lia Bool Ascii String List.
From Stdlib Require Import DecimalFacts DecimalPos DecimalN DecimalZ.
From stdpp Require Import base gmap strings list.

Open Scope Z_scope.
Set Warnings "-register-all".

(** ** Strings *)

Abbreviation str := (list Z).

Definition ord (a : ascii) : Z := Z.of_N (N_of_ascii a).

(** [lit s] is the Python string with the ASCII characters of [s]. *)
Definition lit (s : string) : str := List.map ord (list_ascii_of_string s).

Definition QUOTE : Z := 34.
Definition BACKSLASH : Z := 92.

(** The other characters of the JSON grammar and of the timestamp, by
    name. *)
Abbreviation TAB := 9 (only parsing).
Abbreviation LF := 10 (only parsing).
Abbreviation CR := 13 (only parsing).
Abbreviation SPACE := 32 (only parsing).
Abbreviation PLUS := 43 (only parsing).
Abbreviation COMMA := 44 (only parsing).
Abbreviation MINUS := 45 (only parsing).
Abbreviation DOT := 46 (only parsing).
Abbreviation SLASH := 47 (only parsing).
Abbreviation DIGIT_0 := 48 (only parsing).
Abbreviation DIGIT_9 := 57 (only parsing).
Abbreviation COLON := 58 (only parsing).
Abbreviation LETTER_E := 69 (only parsing).
Abbreviation LETTER_T := 84 (only parsing).
Abbreviation LBRACKET := 91 (only parsing).
Abbreviation RBRACKET := 93 (only parsing).
Abbreviation LETTER_b := 98 (only parsing).
Abbreviation LETTER_e := 101 (only parsing).
Abbreviation LETTER_f := 102 (only parsing).
Abbreviation LETTER_n := 110 (only parsing).
Abbreviation LETTER_r := 114 (only parsing).
Abbreviation LETTER_t := 116 (only parsing).
Abbreviation LETTER_u := 117 (only parsing).
Abbreviation LBRACE := 123 (only parsing).
Abbreviation RBRACE := 125 (only parsing).

(** [quoted s] is [s] between two double quotes, as in a JSON document. *)
Definition quoted (s : string) : str := QUOTE :: lit s ++ [QUOTE].

(** ** Exceptions and results *)

Inductive exn : Type :=
| FileNotFoundError
| IsADirectoryError
| PermissionError
| UnicodeDecodeError
| UnicodeEncodeError
| JSONDecodeError
| TypeError.

(** [OSError] is the base class of the three file-system errors. *)
Definition is_OSError (e : exn) : bool :=
  match e with
  | FileNotFoundError | IsADirectoryError | PermissionError => true
  | _ => false
  end.

Inductive result (A : Type) : Type :=
| Ok (a : A)
| Raise (e : exn).
Arguments Ok {A} a.
Arguments Raise {A} e.

Definition bind {A B} (r : result A) (k : A -> result B) : result B :=
  match r with
  | Ok a => k a
  | Raise e => Raise e
  end.

Notation "'let*' x ':=' r 'in' k" := (bind r (fun x => k))
  (at level 10, x name, r at level 100, k at level 200).

(** [[f(x) for x in l]]: stops at the first element on which [f] raises. *)
Fixpoint comprehension {A B} (f : A -> result B) (l : list A) : result (list B) :=
  match l with
  | [] => Ok []
  | x :: t =>
      let* y := f x in
      let* ys := comprehension f t in
      Ok (y :: ys)
  end.

(** ** The UTF-8 codec (strict error handler) *)

Definition is_surrogate (c : Z) : bool := (0xD800 <=? c) && (c <=? 0xDFFF).

Definition utf8_encode_char (c : Z) : option (list Z) :=
  if c <? 0 then None
  else if c <? 0x80 then Some [c]
  else if c <? 0x800 then Some [0xC0 + c / 64; 0x80 + c mod 64]
  else if is_surrogate c then None
  else if c <? 0x10000 then
    Some [0xE0 + c / 4096; 0x80 + (c / 64) mod 64; 0x80 + c mod 64]
  else if c <? 0x110000 then
    Some [0xF0 + c / 262144; 0x80 + (c / 4096) mod 64;
          0x80 + (c / 64) mod 64; 0x80 + c mod 64]
  else None.

Fixpoint utf8_encode (s : str) : option (list Z) :=
  match s with
  | [] => Some []
  | c :: t =>
      match utf8_encode_char c, utf8_encode t with
      | Some bs, Some rest => Some (bs ++ rest)
      | _, _ => None
      end
  end.

Definition is_continuation (b : Z) : bool := (0x80 <=? b) && (b <? 0xC0).

Definition prepend (c : Z) (r : option str) : option str :=
  match r with
  | Some s => Some (c :: s)
  | None => None
  end.

Fixpoint utf8_decode (bs : list Z) : option str :=
  match bs with
  | [] => Some []
  | b0 :: t0 =>
      if b0 <? 0 then None
      else if b0 <? 0x80 then prepend b0 (utf8_decode t0)
      else if b0 <? 0xC2 then None
      else if b0 <? 0xE0 then
        match t0 with
        | b1 :: t1 =>
            if is_continuation b1
            then prepend ((b0 - 0xC0) * 64 + (b1 - 0x80)) (utf8_decode t1)
            else None
        | _ => None
        end
      else if b0 <? 0xF0 then
        match t0 with
        | b1 :: b2 :: t2 =>
            let c := (b0 - 0xE0) * 4096 + (b1 - 0x80) * 64 + (b2 - 0x80) in
            if is_continuation b1 && is_continuation b2
               && (0x800 <=? c) && negb (is_surrogate c)
            then prepend c (utf8_decode t2)
            else None
        | _ => None
        end
      else if b0 <? 0xF5 then
        match t0 with
        | b1 :: b2 :: b3 :: t3 =>
            let c := (b0 - 0xF0) * 262144 + (b1 - 0x80) * 4096
                     + (b2 - 0x80) * 64 + (b3 - 0x80) in
            if is_continuation b1 && is_continuation b2 && is_continuation b3
               && (0x10000 <=? c) && (c <? 0x110000)
            then prepend c (utf8_decode t3)
            else None
        | _ => None
        end
      else None
  end.

(** Text mode with [newline=None]: on reading, [\r\n] and a lone [\r] become
    [\n]. (On writing, [\n] is written as the platform's line separator, which
    is [\n] itself on POSIX, the platform modelled here.) *)
Fixpoint universal_newlines (s : str) : str :=
  match s with
  | [] => []
  | c :: t =>
      if c =? CR then
        match t with
        | d :: t' => if d =? LF then LF :: universal_newlines t'
                     else LF :: universal_newlines t
        | [] => [LF]
        end
      else c :: universal_newlines t
  end.

(** ** The file system

    A flat name space: a path names a directory, a regular file with its
    permission bits and bytes, or nothing. A path that names nothing can be
    created. *)

Inductive node : Type :=
| Directory
| RegularFile (readable writable : bool) (data : list Z).

Abbreviation filesystem := (gmap string node).

(** [Path.exists()] *)
Definition exists_ (fs : filesystem) (p : string) : bool :=
  match fs !! p with
  | Some _ => true
  | None => false
  end.

(** [Path.read_text(encoding="utf-8")] *)
Definition read_text (fs : filesystem) (p : string) : result str :=
  match fs !! p with
  | None => Raise FileNotFoundError
  | Some Directory => Raise IsADirectoryError
  | Some (RegularFile r _ data) =>
      if r then
        match utf8_decode data with
        | Some s => Ok (universal_newlines s)
        | None => Raise UnicodeDecodeError
        end
      else Raise PermissionError
  end.

(** [Path.write_text(data, encoding="utf-8")]: the file is opened for
    writing, which creates or truncates it, and then the encoded text is
    written; text that does not encode leaves the truncated file behind. *)
Definition write_text (fs : filesystem) (p : string) (data : str)
  : result unit * filesystem :=
  let store r :=
    match utf8_encode data with
    | Some bytes => (Ok tt, <[p := RegularFile r true bytes]> fs)
    | None => (Raise UnicodeEncodeError, <[p := RegularFile r true []]> fs)
    end in
  match fs !! p with
  | None => store true
  | Some Directory => (Raise IsADirectoryError, fs)
  | Some (RegularFile r w _) =>
      if w then store r else (Raise PermissionError, fs)
  end.

(** ** json.decoder and json.scanner: strings and numbers *)

(** The outcome of scanning a prefix of the remaining text. [Exhausted] is
    the recursion bound of this model running out; [scan_once_fuel] shows
    that [json_loads] never meets it. *)
Inductive scan (A : Type) : Type :=
| Scanned (a : A) (rest : str)
| Invalid
| Exhausted.
Arguments Scanned {A} a rest.
Arguments Invalid {A}.
Arguments Exhausted {A}.

(** [WHITESPACE]: spaces, tabs, line feeds and carriage returns. *)
Definition is_whitespace (c : Z) : bool :=
  (c =? SPACE) || (c =? TAB) || (c =? LF) || (c =? CR).

Fixpoint skip_whitespace (s : str) : str :=
  match s with
  | c :: t => if is_whitespace c then skip_whitespace t else s
  | [] => []
  end.

Definition hex_digit (c : Z) : option Z :=
  if (48 <=? c) && (c <=? 57) then Some (c - 48)
  else if (97 <=? c) && (c <=? 102) then Some (c - 87)
  else if (65 <=? c) && (c <=? 70) then Some (c - 55)
  else None.

(** [_decode_uXXXX]: four hexadecimal digits. *)
Definition decode_uXXXX (h1 h2 h3 h4 : Z) : option Z :=
  match hex_digit h1, hex_digit h2, hex_digit h3, hex_digit h4 with
  | Some a, Some b, Some c, Some d => Some (((a * 16 + b) * 16 + c) * 16 + d)
  | _, _, _, _ => None
  end.

(** The table [BACKSLASH] of [json.decoder]. *)
Definition backslash_table (esc : Z) : option Z :=
  if esc =? QUOTE then Some QUOTE
  else if esc =? BACKSLASH then Some BACKSLASH
  else if esc =? SLASH then Some SLASH
  else if esc =? LETTER_b then Some 8
  else if esc =? LETTER_f then Some 12
  else if esc =? LETTER_n then Some LF
  else if esc =? LETTER_r then Some CR
  else if esc =? LETTER_t then Some TAB
  else None.

Definition scanned_cons (c : Z) (r : option (str * str)) : option (str * str) :=
  match r with
  | Some (s, rest) => Some (c :: s, rest)
  | None => None
  end.

(** [scanstring(s, end, strict=True)], from just after the opening quote:
    the string's content and the text after the closing quote. A chunk ends
    at a quote, a backslash or a control character U+0000 to U+001F; the
    last is an error in strict mode. *)
Fixpoint scanstring (s : str) : option (str * str) :=
  match s with
  | [] => None
  | c :: t =>
      if c =? QUOTE then Some ([], t)
      else if c =? BACKSLASH then
        match t with
        | [] => None
        | esc :: t1 =>
            if esc =? LETTER_u then
              match t1 with
              | h1 :: h2 :: h3 :: h4 :: t2 =>
                  match decode_uXXXX h1 h2 h3 h4 with
                  | None => None
                  | Some uni =>
                      if (0xD800 <=? uni) && (uni <=? 0xDBFF) then
                        match t2 with
                        | b :: u :: t3 =>
                            if (b =? BACKSLASH) && (u =? LETTER_u) then
                              match t3 with
                              | g1 :: g2 :: g3 :: g4 :: t4 =>
                                  match decode_uXXXX g1 g2 g3 g4 with
                                  | None => None
                                  | Some uni2 =>
                                      if (0xDC00 <=? uni2) && (uni2 <=? 0xDFFF)
                                      then scanned_cons
                                             (0x10000 + ((uni - 0xD800) * 1024
                                                         + (uni2 - 0xDC00)))
                                             (scanstring t4)
                                      else scanned_cons uni (scanstring t2)
                                  end
                              | _ => None
                              end
                            else scanned_cons uni (scanstring t2)
                        | _ => scanned_cons uni (scanstring t2)
                        end
                      else scanned_cons uni (scanstring t2)
                  end
              | _ => None
              end
            else
              match backslash_table esc with
              | Some ch => scanned_cons ch (scanstring t1)
              | None => None
              end
        end
      else if (0 <=? c) && (c <? 32) then None
      else scanned_cons c (scanstring t)
  end.

(** *** Numbers *)

Definition is_digit (c : Z) : bool := (DIGIT_0 <=? c) && (c <=? DIGIT_9).

(** The longest prefix of digits and what follows it. *)
Fixpoint span_digits (s : str) : str * str :=
  match s with
  | c :: t =>
      if is_digit c then let '(ds, rest) := span_digits t in (c :: ds, rest)
      else ([], s)
  | [] => ([], [])
  end.

(** [NUMBER_RE]: an optional minus sign and then either a single 0 or a
    digit 1-9 with any digits after it; optionally a dot and one or more
    digits; optionally e or E, an optional sign and one or more digits.
    [match_number] gives the three groups (an absent optional group is
    empty) and what follows the match. *)
Definition match_integer (s : str) : option (str * str) :=
  let '(sign, s1) :=
    match s with
    | c :: t => if c =? MINUS then ([MINUS], t) else ([], s)
    | [] => ([], s)
    end in
  match s1 with
  | c :: t =>
      if c =? DIGIT_0 then Some (sign ++ [DIGIT_0], t)
      else if is_digit c then
        let '(ds, rest) := span_digits t in Some (sign ++ c :: ds, rest)
      else None
  | [] => None
  end.

Definition match_frac (s : str) : str * str :=
  match s with
  | c :: t =>
      if c =? DOT then
        match span_digits t with
        | ([], _) => ([], s)
        | (ds, rest) => (DOT :: ds, rest)
        end
      else ([], s)
  | [] => ([], s)
  end.

Definition match_exp (s : str) : str * str :=
  match s with
  | c :: t =>
      if (c =? LETTER_e) || (c =? LETTER_E) then
        let '(sign, t1) :=
          match t with
          | d :: t' => if (d =? MINUS) || (d =? PLUS) then ([d], t') else ([], t)
          | [] => ([], t)
          end in
        match span_digits t1 with
        | ([], _) => ([], s)
        | (ds, rest) => (c :: sign ++ ds, rest)
        end
      else ([], s)
  | [] => ([], s)
  end.

Definition match_number (s : str) : option (str * str * str * str) :=
  match match_integer s with
  | None => None
  | Some (integer, s1) =>
      let '(frac, s2) := match_frac s1 in
      let '(exp, s3) := match_exp s2 in
      Some (integer, frac, exp, s3)
  end.

(** Digits to [Decimal.uint] and back. *)
Fixpoint uint_of_digits (ds : str) : Decimal.uint :=
  match ds with
  | [] => Decimal.Nil
  | c :: t =>
      let u := uint_of_digits t in
      match c - 48 with
      | 0 => Decimal.D0 u | 1 => Decimal.D1 u | 2 => Decimal.D2 u
      | 3 => Decimal.D3 u | 4 => Decimal.D4 u | 5 => Decimal.D5 u
      | 6 => Decimal.D6 u | 7 => Decimal.D7 u | 8 => Decimal.D8 u
      | _ => Decimal.D9 u
      end
  end.

Fixpoint digits_of_uint (u : Decimal.uint) : str :=
  match u with
  | Decimal.Nil => []
  | Decimal.D0 u => 48 :: digits_of_uint u
  | Decimal.D1 u => 49 :: digits_of_uint u
  | Decimal.D2 u => 50 :: digits_of_uint u
  | Decimal.D3 u => 51 :: digits_of_uint u
  | Decimal.D4 u => 52 :: digits_of_uint u
  | Decimal.D5 u => 53 :: digits_of_uint u
  | Decimal.D6 u => 54 :: digits_of_uint u
  | Decimal.D7 u => 55 :: digits_of_uint u
  | Decimal.D8 u => 56 :: digits_of_uint u
  | Decimal.D9 u => 57 :: digits_of_uint u
  end.

(** [int(text)] on a match of the first group of [NUMBER_RE]. *)
Definition int_of_literal (s : str) : Z :=
  match s with
  | c :: t => if c =? MINUS then - Z.of_uint (uint_of_digits t)
              else Z.of_uint (uint_of_digits s)
  | [] => 0
  end.

(** [int.__repr__] *)
Definition intstr (n : Z) : str :=
  match Z.to_int n with
  | Decimal.Pos u => digits_of_uint u
  | Decimal.Neg u => MINUS :: digits_of_uint u
  end.

(** [s[idx:idx + len(word)] == word]: what follows [word] at the front of
    [s]. *)
Fixpoint startswith (word s : str) : option str :=
  match word with
  | [] => Some s
  | w :: word' =>
      match s with
      | c :: t => if c =? w then startswith word' t else None
      | [] => None
      end
  end.


(** ** Python values

    The values [json.loads] builds. A [dict] keeps its keys in insertion
    order; its keys are strings, as every JSON object's are. Of the type
    [float] this development only needs the conversions from and to text,
    which it takes as an interface. *)

Class Floats : Type := {
  pyfloat : Type;
  (** [float(text)] *)
  float_of_literal : str -> pyfloat;
  (** [floatstr(o)] of [json.encoder]: [float.__repr__], or one of [NaN],
      [Infinity] and [-Infinity] *)
  floatstr : pyfloat -> str
}.

Section Collector.

Context {F : Floats}.

Inductive pyval : Type :=
| PNone
| PBool (b : bool)
| PInt (n : Z)
| PFloat (f : pyfloat)
| PStr (s : str)
| PList (l : list pyval)
| PDict (d : list (str * pyval)).

(** [d[k] = v] *)
Fixpoint dict_setitem (d : list (str * pyval)) (k : str) (v : pyval)
  : list (str * pyval) :=
  match d with
  | [] => [(k, v)]
  | (k', v') :: t =>
      if bool_decide (k' = k) then (k, v) :: t
      else (k', v') :: dict_setitem t k v
  end.

(** [dict(pairs)] *)
Definition dict_of_pairs (pairs : list (str * pyval)) : list (str * pyval) :=
  fold_left (fun d kv => dict_setitem d (fst kv) (snd kv)) pairs [].

(** [d.get(k)] *)
Fixpoint dict_get (d : list (str * pyval)) (k : str) : option pyval :=
  match d with
  | [] => None
  | (k', v) :: t => if bool_decide (k' = k) then Some v else dict_get t k
  end.

(** ** json.decoder and json.scanner: values *)

(** The loop of [JSONArray] after the first value has been scanned: [s] is
    the text after a value. *)
Fixpoint JSONArray_loop (scan_once : str -> scan pyval) (fuel : nat)
  (values : list pyval) (s : str) : scan pyval :=
  match fuel with
  | O => Exhausted
  | S fuel' =>
      match skip_whitespace s with
      | c :: t =>
          if c =? RBRACKET then Scanned (PList values) t
          else if c =? COMMA then
            match scan_once (skip_whitespace t) with
            | Scanned value rest =>
                JSONArray_loop scan_once fuel' (values ++ [value]) rest
            | Invalid => Invalid
            | Exhausted => Exhausted
            end
          else Invalid
      | [] => Invalid
      end
  end.

(** [JSONArray((s, end), scan_once)], from just after the opening bracket. *)
Definition JSONArray (scan_once : str -> scan pyval) (fuel : nat) (s : str)
  : scan pyval :=
  match skip_whitespace s with
  | c :: t =>
      if c =? RBRACKET then Scanned (PList []) t
      else
        match scan_once (skip_whitespace s) with
        | Scanned value rest => JSONArray_loop scan_once fuel [value] rest
        | Invalid => Invalid
        | Exhausted => Exhausted
        end
  | [] => Invalid
  end.

(** One [key: value] pair of [JSONObject], from just after the opening quote
    of the key. *)
Definition JSONObject_pair (scan_once : str -> scan pyval) (s : str)
  : scan (str * pyval) :=
  match scanstring s with
  | None => Invalid
  | Some (key, s1) =>
      match skip_whitespace s1 with
      | c :: t =>
          if c =? COLON then
            match scan_once (skip_whitespace t) with
            | Scanned value rest => Scanned (key, value) rest
            | Invalid => Invalid
            | Exhausted => Exhausted
            end
          else Invalid
      | [] => Invalid
      end
  end.

(** The loop of [JSONObject] after a pair has been scanned. *)
Fixpoint JSONObject_loop (scan_once : str -> scan pyval) (fuel : nat)
  (pairs : list (str * pyval)) (s : str) : scan pyval :=
  match fuel with
  | O => Exhausted
  | S fuel' =>
      match skip_whitespace s with
      | c :: t =>
          if c =? RBRACE then Scanned (PDict (dict_of_pairs pairs)) t
          else if c =? COMMA then
            match skip_whitespace t with
            | q :: t1 =>
                if q =? QUOTE then
                  match JSONObject_pair scan_once t1 with
                  | Scanned kv rest =>
                      JSONObject_loop scan_once fuel' (pairs ++ [kv]) rest
                  | Invalid => Invalid
                  | Exhausted => Exhausted
                  end
                else Invalid
            | [] => Invalid
            end
          else Invalid
      | [] => Invalid
      end
  end.

(** [JSONObject((s, end), strict, scan_once, ...)], from just after the
    opening brace. *)
Definition JSONObject (scan_once : str -> scan pyval) (fuel : nat) (s : str)
  : scan pyval :=
  match skip_whitespace s with
  | c :: t =>
      if c =? RBRACE then Scanned (PDict []) t
      else if c =? QUOTE then
        match JSONObject_pair scan_once t with
        | Scanned kv rest => JSONObject_loop scan_once fuel [kv] rest
        | Invalid => Invalid
        | Exhausted => Exhausted
        end
      else Invalid
  | [] => Invalid
  end.

(** [_scan_once(string, idx)] of [json.scanner]. *)
Fixpoint scan_once (fuel : nat) (s : str) : scan pyval :=
  match fuel with
  | O => Exhausted
  | S fuel' =>
      match s with
      | [] => Invalid
      | nextchar :: t =>
          if nextchar =? QUOTE then
            match scanstring t with
            | Some (v, rest) => Scanned (PStr v) rest
            | None => Invalid
            end
          else if nextchar =? LBRACE then JSONObject (scan_once fuel') fuel' t
          else if nextchar =? LBRACKET then JSONArray (scan_once fuel') fuel' t
          else
            match startswith (lit "null") s, startswith (lit "true") s,
                  startswith (lit "false") s with
            | Some rest, _, _ => Scanned PNone rest
            | None, Some rest, _ => Scanned (PBool true) rest
            | None, None, Some rest => Scanned (PBool false) rest
            | None, None, None =>
                match match_number s with
                | Some (integer, frac, exp, rest) =>
                    match frac ++ exp with
                    | [] => Scanned (PInt (int_of_literal integer)) rest
                    | _ => Scanned
                             (PFloat (float_of_literal (integer ++ frac ++ exp)))
                             rest
                    end
                | None =>
                    match startswith (lit "NaN") s,
                          startswith (lit "Infinity") s,
                          startswith (lit "-Infinity") s with
                    | Some rest, _, _ =>
                        Scanned (PFloat (float_of_literal (lit "nan"))) rest
                    | None, Some rest, _ =>
                        Scanned (PFloat (float_of_literal (lit "inf"))) rest
                    | None, None, Some rest =>
                        Scanned (PFloat (float_of_literal (lit "-inf"))) rest
                    | None, None, None => Invalid
                    end
                end
            end
      end
  end.

(** [json.loads(s)]: a byte order mark is refused, white space may surround
    the value, and nothing else may follow it. Every failure is a
    [JSONDecodeError]. *)
Definition json_loads (s : str) : result pyval :=
  match startswith [0xFEFF] s with
  | Some _ => Raise JSONDecodeError
  | None =>
      match scan_once (S (length s)) (skip_whitespace s) with
      | Scanned obj rest =>
          match skip_whitespace rest with
          | [] => Ok obj
          | _ :: _ => Raise JSONDecodeError
          end
      | Invalid => Raise JSONDecodeError
      | Exhausted => Raise JSONDecodeError
      end
  end.

(** ** json.encoder, with [ensure_ascii=False] and [indent=2] *)

Definition hex_char (d : Z) : Z := if d <? 10 then 48 + d else 87 + d.

(** [ESCAPE_DCT] on the characters [ESCAPE] matches: the quote, the
    backslash and the control characters below U+0020. Every other
    character is written as it is. *)
Definition escape_char (c : Z) : str :=
  if c =? QUOTE then [BACKSLASH; QUOTE]
  else if c =? BACKSLASH then [BACKSLASH; BACKSLASH]
  else if c =? LF then [BACKSLASH; LETTER_n]
  else if c =? CR then [BACKSLASH; LETTER_r]
  else if c =? TAB then [BACKSLASH; LETTER_t]
  else if c =? 12 then [BACKSLASH; LETTER_f]
  else if c =? 8 then [BACKSLASH; LETTER_b]
  else if (0 <=? c) && (c <? 32) then
    [BACKSLASH; LETTER_u; DIGIT_0; DIGIT_0; hex_char (c / 16);
     hex_char (c mod 16)]
  else [c].

(** [py_encode_basestring(s)] *)
Definition encode_basestring (s : str) : str :=
  QUOTE :: flat_map escape_char s ++ [QUOTE].

(** A line feed and [2 * level] spaces. *)
Definition newline_indent (level : nat) : str :=
  LF :: repeat SPACE (2 * level)%nat.

(** [separator.join(chunks)] *)
Definition join (separator : str) (chunks : list str) : str :=
  match chunks with
  | [] => []
  | c :: cs => c ++ flat_map (fun x => separator ++ x) cs
  end.

(** [_iterencode(o, _current_indent_level)], its chunks concatenated. The
    item separator is a comma followed by the new line and indent, the key
    separator a colon and a space. *)
Fixpoint iterencode (o : pyval) (level : nat) : str :=
  match o with
  | PStr s => encode_basestring s
  | PNone => lit "null"
  | PBool true => lit "true"
  | PBool false => lit "false"
  | PInt n => intstr n
  | PFloat f => floatstr f
  | PList [] => lit "[]"
  | PList l =>
      [LBRACKET] ++ newline_indent (S level)
      ++ join (COMMA :: newline_indent (S level))
           (List.map (fun v => iterencode v (S level)) l)
      ++ newline_indent level ++ [RBRACKET]
  | PDict [] => lit "{}"
  | PDict d =>
      [LBRACE] ++ newline_indent (S level)
      ++ join (COMMA :: newline_indent (S level))
           (List.map (fun kv => encode_basestring (fst kv) ++ lit ": "
                                ++ iterencode (snd kv) (S level)) d)
      ++ newline_indent level ++ [RBRACE]
  end.

(** [json.dumps(obj, ensure_ascii=False, indent=2)] *)
Definition json_dumps (obj : pyval) : str := iterencode obj 0.

(** ** datetime *)

Definition is_leap (y : Z) : bool :=
  (y mod 4 =? 0) && (negb (y mod 100 =? 0) || (y mod 400 =? 0)).

Definition days_in_month (y m : Z) : Z :=
  if m =? 2 then (if is_leap y then 29 else 28)
  else if (m =? 4) || (m =? 6) || (m =? 9) || (m =? 11) then 30
  else 31.

(** The ranges the constructor of [datetime] enforces. *)
Definition datetime_fields_ok (y mo d h mi s : Z) : bool :=
  (1 <=? y) && (y <=? 9999) && (1 <=? mo) && (mo <=? 12)
  && (1 <=? d) && (d <=? days_in_month y mo)
  && (0 <=? h) && (h <=? 23) && (0 <=? mi) && (mi <=? 59)
  && (0 <=? s) && (s <=? 59).

Record datetime : Type := {
  year : Z; month : Z; day : Z; hour : Z; minute : Z; second : Z;
  datetime_ok : datetime_fields_ok year month day hour minute second = true
}.

Definition digits2 (n : Z) : str := [48 + n / 10; 48 + n mod 10].

Definition digits4 (n : Z) : str :=
  [48 + n / 1000; 48 + (n / 100) mod 10; 48 + (n / 10) mod 10; 48 + n mod 10].

(** [dt.isoformat(timespec="seconds")] of a naive [datetime]. *)
Definition isoformat (dt : datetime) : str :=
  digits4 (year dt) ++ [MINUS] ++ digits2 (month dt) ++ [MINUS]
  ++ digits2 (day dt) ++ [LETTER_T] ++ digits2 (hour dt) ++ [COLON]
  ++ digits2 (minute dt) ++ [COLON] ++ digits2 (second dt).

(** ** Record *)

Record record : Type := {
  name : pyval;
  age : pyval;
  email : pyval;
  phone : pyval;
  notes : pyval;
  timestamp : pyval
}.

(** The parameters of the generated [Record.__init__], in declaration
    order. *)
Definition FIELDS : list str :=
  [lit "name"; lit "age"; lit "email"; lit "phone"; lit "notes";
   lit "timestamp"].

(** [Record] called with the keyword arguments [item], as the
    comprehension of [_load] does: [item] must be a mapping, each of its keys must name a
    parameter, and every parameter must be given; the values are stored as
    they are. *)
Definition Record_kwargs (item : pyval) : result record :=
  match item with
  | PDict kwargs =>
      if forallb (fun kv => bool_decide (fst kv ∈ FIELDS)) kwargs then
        match dict_get kwargs (lit "name"), dict_get kwargs (lit "age"),
              dict_get kwargs (lit "email"), dict_get kwargs (lit "phone"),
              dict_get kwargs (lit "notes"),
              dict_get kwargs (lit "timestamp") with
        | Some n, Some a, Some e, Some p, Some o, Some t =>
            Ok {| name := n; age := a; email := e; phone := p; notes := o;
                  timestamp := t |}
        | _, _, _, _, _, _ => Raise TypeError
        end
      else Raise TypeError
  | _ => Raise TypeError
  end.

(** [dataclasses.asdict(record)]: the fields in declaration order. ([asdict]
    copies the values, which leaves a value of [pyval] as it is.) *)
Definition asdict (r : record) : pyval :=
  PDict [(lit "name", name r); (lit "age", age r); (lit "email", email r);
         (lit "phone", phone r); (lit "notes", notes r);
         (lit "timestamp", timestamp r)].

(** [for item in data]: the items a [for] loop draws from [data]. *)
Definition iter (data : pyval) : result (list pyval) :=
  match data with
  | PList l => Ok l
  | PDict d => Ok (List.map (fun kv => PStr (fst kv)) d)
  | PStr s => Ok (List.map (fun c => PStr [c]) s)
  | PNone | PBool _ | PInt _ | PFloat _ => Raise TypeError
  end.

(** ** DataCollector *)

Record DataCollector : Type := {
  storage_path : string;
  records : list record
}.

Definition _load (path : string) (fs : filesystem) : result (list record) :=
  if negb (exists_ fs path) then Ok []
  else
    let* text := read_text fs path in
    match json_loads text with
    | Raise JSONDecodeError => Ok []
    | Raise e => Raise e
    | Ok data =>
        let* items := iter data in
        comprehension Record_kwargs items
    end.

Definition __init__ (path : string) (fs : filesystem) : result DataCollector :=
  let* loaded := _load path fs in
  Ok {| storage_path := path; records := loaded |}.

Definition _save (self : DataCollector) (fs : filesystem)
  : result unit * filesystem :=
  write_text fs (storage_path self)
    (json_dumps (PList (List.map asdict (records self)))).

(** [add_record]: [now] is what [datetime.now()] answers during the call.
    The result is the outcome of the call, the collector after it and the
    file system after it. *)
Definition add_record (self : DataCollector) (now : datetime)
  (name age email phone notes : pyval) (fs : filesystem)
  : result record * DataCollector * filesystem :=
  let record :=
    {| name := name; age := age; email := email; phone := phone;
       notes := notes; timestamp := PStr (isoformat now) |} in
  let self' :=
    {| storage_path := storage_path self;
       records := records self ++ [record] |} in
  let '(saved, fs') := _save self' fs in
  (let* _ := saved in Ok record, self', fs').

(** ** Sequences of calls *)

(** One [add_record] call: its keyword arguments and the clock reading
    during it. *)
Record call : Type := {
  at_time : datetime;
  arg_name : pyval;
  arg_age : pyval;
  arg_email : pyval;
  arg_phone : pyval;
  arg_notes : pyval
}.

(** The record a call constructs. *)
Definition new_record (c : call) : record :=
  {| name := arg_name c; age := arg_age c; email := arg_email c;
     phone := arg_phone c; notes := arg_notes c;
     timestamp := PStr (isoformat (at_time c)) |}.

(** Successive [add_record] calls on one collector, with the outcome of each
    call. *)
Fixpoint add_records (self : DataCollector) (calls : list call)
  (fs : filesystem) : list (result record) * DataCollector * filesystem :=
  match calls with
  | [] => ([], self, fs)
  | c :: rest =>
      let '(outcome, self1, fs1) :=
        add_record self (at_time c) (arg_name c) (arg_age c) (arg_email c)
          (arg_phone c) (arg_notes c) fs in
      let '(outcomes, self2, fs2) := add_records self1 rest fs1 in
      (outcome :: outcomes, self2, fs2)
  end.

Definition is_ok {A} (r : result A) : bool :=
  match r with
  | Ok _ => true
  | Raise _ => false
  end.

Definition is_str (v : pyval) : bool :=
  match v with
  | PStr _ => true
  | _ => false
  end.

Definition is_int (v : pyval) : bool :=
  match v with
  | PInt _ => true
  | _ => false
  end.

(** The types the signature of [add_record] declares. *)
Definition declared_types (c : call) : bool :=
  is_str (arg_name c) && is_int (arg_age c) && is_str (arg_email c)
  && is_str (arg_phone c) && is_str (arg_notes c).

(** ** The storage format, in the words of the specification *)

Definition two_digits (a b : Z) : option Z :=
  if is_digit a && is_digit b then Some ((a - 48) * 10 + (b - 48)) else None.

(** [YYYY-MM-DDTHH:MM:SS] with a month, a day of that month, an hour, a
    minute and a second in range. *)
Definition is_iso8601 (s : str) : bool :=
  match s with
  | [y1; y2; y3; y4; dash1; m1; m2; dash2; a1; a2; t; h1; h2; colon1; i1; i2;
     colon2; s1; s2] =>
      match two_digits y1 y2, two_digits y3 y4, two_digits m1 m2,
            two_digits a1 a2, two_digits h1 h2, two_digits i1 i2,
            two_digits s1 s2 with
      | Some yh, Some yl, Some mo, Some d, Some h, Some mi, Some sec =>
          (dash1 =? MINUS) && (dash2 =? MINUS) && (t =? LETTER_T)
          && (colon1 =? COLON) && (colon2 =? COLON)
          && (1 <=? mo) && (mo <=? 12)
          && (1 <=? d) && (d <=? days_in_month (yh * 100 + yl) mo)
          && (h <=? 23) && (mi <=? 59) && (sec <=? 59)
      | _, _, _, _, _, _, _ => false
      end
  | _ => false
  end.

(** A record as the data model describes it: strings, an integer age and an
    ISO-8601 timestamp. *)
Definition record_conforms (r : record) : bool :=
  is_str (name r) && is_int (age r) && is_str (email r) && is_str (phone r)
  && is_str (notes r)
  && match timestamp r with
     | PStr t => is_iso8601 t
     | _ => false
     end.

(** One member of a mapping: the key between quotes, a colon, a space and
    the value (nested two levels deep). *)
Definition member_text (key : string) (value : pyval) : str :=
  quoted key ++ lit ": " ++ iterencode value 2.

(** One record as a mapping, its six keys in declaration order, one per
    line. *)
Definition mapping_text (r : record) : str :=
  lit "{" ++ [LF] ++ lit "    " ++ member_text "name" (name r)
  ++ lit "," ++ [LF] ++ lit "    " ++ member_text "age" (age r)
  ++ lit "," ++ [LF] ++ lit "    " ++ member_text "email" (email r)
  ++ lit "," ++ [LF] ++ lit "    " ++ member_text "phone" (phone r)
  ++ lit "," ++ [LF] ++ lit "    " ++ member_text "notes" (notes r)
  ++ lit "," ++ [LF] ++ lit "    " ++ member_text "timestamp" (timestamp r)
  ++ [LF] ++ lit "  " ++ lit "}".

(** The array of the mappings: each on a new line after the opening bracket
    or after a comma, and the closing bracket on a line of its own. *)
Fixpoint mappings_text (rs : list record) : str :=
  match rs with
  | [] => []
  | [r] => [LF] ++ lit "  " ++ mapping_text r
  | r :: rest =>
      [LF] ++ lit "  " ++ mapping_text r ++ lit "," ++ mappings_text rest
  end.

Definition document_text (rs : list record) : str :=
  match rs with
  | [] => lit "[]"
  | _ => lit "[" ++ mappings_text rs ++ [LF] ++ lit "]"
  end.

(** A character [json.dumps] writes as it is. *)
Definition written_natively (c : Z) : bool :=
  (32 <=? c) && negb (c =? QUOTE) && negb (c =? BACKSLASH).

(** The keys of a mapping are exactly the six field names. *)
Definition has_record_keys (d : list (str * pyval)) : Prop :=
  forall k, k ∈ List.map fst d <-> k ∈ FIELDS.

(** A JSON array all of whose elements are mappings. *)
Definition is_array_of_mappings (data : pyval) : bool :=
  match data with
  | PList items =>
      forallb (fun item => match item with PDict _ => true | _ => false end)
        items
  | _ => false
  end.

(** The items of a mapping are the fields of a record. *)
Definition holds_fields (d : list (str * pyval)) (r : record) : Prop :=
  dict_get d (lit "name") = Some (name r)
  /\ dict_get d (lit "age") = Some (age r)
  /\ dict_get d (lit "email") = Some (email r)
  /\ dict_get d (lit "phone") = Some (phone r)
  /\ dict_get d (lit "notes") = Some (notes r)
  /\ dict_get d (lit "timestamp") = Some (timestamp r).

(** A value a [for] loop draws no item from: the empty string and the empty
    mapping (the empty array is an array of mappings). *)
Definition iterates_nothing (data : pyval) : bool :=
  match data with
  | PStr [] | PDict [] => true
  | _ => false
  end.

(** ** Notions used in the statements and their proofs *)

(** What may follow the digits of an integer for [NUMBER_RE] to stop
    there. *)
Definition ends_number (rest : str) : bool :=
  match rest with
  | [] => true
  | c :: _ =>
      negb (is_digit c) && negb (c =? DOT) && negb (c =? LETTER_e)
      && negb (c =? LETTER_E)
  end.

(** A string or an integer. *)
Definition is_flat (v : pyval) : bool := is_str v || is_int v.

Definition flat_record (r : record) : bool :=
  is_flat (name r) && is_flat (age r) && is_flat (email r)
  && is_flat (phone r) && is_flat (notes r) && is_flat (timestamp r).

(** The text of one item of a mapping and of one record. *)
Definition pair_text (level : nat) (kv : str * pyval) : str :=
  encode_basestring (fst kv) ++ lit ": " ++ iterencode (snd kv) level.

Definition record_text (level : nat) (r : record) : str :=
  iterencode (asdict r) level.

(** The items after the first one, each behind its separator. *)
Definition separated {A} (level : nat) (text : A -> str) (l : list A) : str :=
  flat_map (fun x => (COMMA :: newline_indent level) ++ text x) l.

(** No carriage return. *)
Definition no_cr (s : str) : Prop := Forall (fun c => c <> CR) s.

(** The path names nothing or a file that may be read. *)
Definition readable_or_missing (fs : filesystem) (path : string) : Prop :=
  match fs !! path with
  | None => True
  | Some (RegularFile true _ _) => True
  | Some _ => False
  end.

(** A scanner that, on text shorter than [n], does not run out of fuel and
    leaves less text than it was given. *)
Definition shrinks_at {A} (r : scan A) (s : str) : Prop :=
  r <> Exhausted
  /\ forall v rest, r = Scanned v rest -> (length rest < length s)%nat.

Definition shrinks {A} (scanner : str -> scan A) (n : nat) : Prop :=
  forall s, (length s < n)%nat -> shrinks_at (scanner s) s.

End Collector.

(** ** The console program: [_prompt] and [run_cli]

    Conventions.
    - Standard input is the list of the lines still to be read, without
      their line ends; [input] on no line raises [EOFError]. Standard
      output is the list of what was shown, oldest first.
    - [print(record)] shows the [repr] of the dataclass and the last line
      of a round shows the resolved storage path; the output keeps the
      value shown, not its text.
    - [int] is a parameter: which texts it accepts (signs, underscores, the
      decimal digits of Unicode) plays no role.
    - [datetime.now()] is read once in every round, by [add_record]; the
      clock is given as the reading of each round.
    - A keyboard interrupt and a console that cannot show Thai text are
      not modelled. *)

(** [str.isspace] on one character. *)
Definition isspace (c : Z) : bool :=
  ((9 <=? c) && (c <=? 13)) || ((28 <=? c) && (c <=? 32))
  || (c =? 133) || (c =? 160) || (c =? 5760)
  || ((8192 <=? c) && (c <=? 8202))
  || (c =? 8232) || (c =? 8233) || (c =? 8239) || (c =? 8287)
  || (c =? 12288).

Fixpoint lstrip (s : str) : str :=
  match s with
  | c :: t => if isspace c then lstrip t else s
  | [] => []
  end.

Definition rstrip (s : str) : str := rev (lstrip (rev s)).

(** [str.strip()] *)
Definition strip (s : str) : str := rstrip (lstrip s).

(** [answer.lower() == "y"]: lower-casing maps every character to one
    character or more, and only [y] and [Y] to [y]. *)
Definition lower_is_y (answer : str) : bool :=
  match answer with
  | [c] => (c =? 121) || (c =? 89)
  | _ => false
  end.

(** The text of a literal of the source, which is written in UTF-8. *)
Definition utf8_lit (s : string) : str :=
  match utf8_decode (lit s) with
  | Some t => t
  | None => []
  end.

(** The built-in [int] called on a string: [None] when it raises
    [ValueError]. *)
Class Builtins := { py_int : str -> option Z }.

(** The built-in [str] called on a string. *)
Definition py_str (value : str) : option str := Some value.

(** What ends the program other than a return: the end of the input, a
    [ValueError] that [_prompt] lets through, or an error raised by the
    collector. *)
Inductive cli_exn : Type :=
| EOFError
| ValueError
| CollectorError (e : exn).

Inductive cli_result (A : Type) : Type :=
| Returned (a : A)
| Raised (e : cli_exn).

Arguments Returned {A} a.
Arguments Raised {A} e.

Section Console.
Context {F : Floats} {B : Builtins}.

Inductive event : Type :=
| Prompted (prompt : str)
| Printed (message : str)
| PrintedRecord (r : record)
| PrintedLocation (path : string).

Record console : Type := {
  stdin : list str;
  stdout : list event
}.

(** [input(prompt)] *)
Definition input (prompt : str) (io : console) : cli_result str * console :=
  match stdin io with
  | line :: rest =>
      (Returned line,
       {| stdin := rest; stdout := stdout io ++ [Prompted prompt] |})
  | [] =>
      (Raised EOFError,
       {| stdin := []; stdout := stdout io ++ [Prompted prompt] |})
  end.

Definition show (e : event) (io : console) : console :=
  {| stdin := stdin io; stdout := stdout io ++ [e] |}.

(** [print(message)] *)
Definition print (message : str) (io : console) : console :=
  show (Printed message) io.

Definition INPUT_REQUIRED : str :=
  utf8_lit "กรุณากรอกข้อมูล (input required)." ++ [LF].

Definition INVALID_FORMAT : str :=
  utf8_lit "รูปแบบข้อมูลไม่ถูกต้อง ลองใหม่อีกครั้ง" ++ [LF].

(** The loop of [_prompt], by recursion on the lines still to be read: every
    turn of the loop reads one. *)
Fixpoint _prompt_loop {A} (prompt : str) (cast : str -> option A)
  (allow_empty : bool) (lines : list str) (out : list event)
  : cli_result A * console :=
  match lines with
  | [] => (Raised EOFError, {| stdin := []; stdout := out ++ [Prompted prompt] |})
  | line :: rest =>
      let value := strip line in
      let io := {| stdin := rest; stdout := out ++ [Prompted prompt] |} in
      if bool_decide (value = []) && negb allow_empty then
        _prompt_loop prompt cast allow_empty rest
          (stdout (print INPUT_REQUIRED io))
      else if bool_decide (value = []) && allow_empty then
        match cast value with
        | Some v => (Returned v, io)
        | None => (Raised ValueError, io)
        end
      else
        match cast value with
        | Some v => (Returned v, io)
        | None =>
            _prompt_loop prompt cast allow_empty rest
              (stdout (print INVALID_FORMAT io))
        end
  end.

Definition _prompt {A} (prompt : str) (cast : str -> option A)
  (allow_empty : bool) (io : console) : cli_result A * console :=
  _prompt_loop prompt cast allow_empty (stdin io) (stdout io).

Definition HEADING : str := utf8_lit "ระบบเก็บข้อมูลผู้ติดต่ออย่างง่าย" ++ [LF].
Definition NAME_PROMPT : str := utf8_lit "ชื่อ: ".
Definition AGE_PROMPT : str := utf8_lit "อายุ: ".
Definition EMAIL_PROMPT : str := utf8_lit "อีเมล: ".
Definition PHONE_PROMPT : str := utf8_lit "เบอร์โทรศัพท์: ".
Definition NOTES_PROMPT : str := utf8_lit "หมายเหตุ (กด Enter ข้ามได้): ".
Definition SAVED : str := LF :: utf8_lit "บันทึกข้อมูลเรียบร้อยแล้ว: ".
Definition CONTINUE_PROMPT : str :=
  utf8_lit "ต้องการกรอกข้อมูลเพิ่มเติมหรือไม่? (y/n): ".
Definition GOODBYE : str := LF :: utf8_lit "จบการทำงาน ขอบคุณ!" ++ [LF].

(** How a round of [run_cli] ends: the outcome, the collector, the console
    and the file system. *)
Definition ending : Type :=
  cli_result unit * DataCollector * console * filesystem.

(** One call of [_prompt] or [input] in the loop of [run_cli]: an exception
    ends the program, a value goes to the rest of the round. *)
Definition ask {A} (asked : cli_result A * console)
  (collector : DataCollector) (fs : filesystem)
  (k : A -> console -> option ending) : option ending :=
  match asked with
  | (Returned v, io) => k v io
  | (Raised e, io) => Some (Raised e, collector, io, fs)
  end.

(** The loop of [run_cli]. [clock n] is what [datetime.now()] answers in
    round [n] from here; [None] is the recursion bound of this model running
    out, one unit for every round. *)
Fixpoint run_cli_loop (fuel : nat) (collector : DataCollector)
  (clock : nat -> datetime) (io : console) (fs : filesystem)
  : option ending :=
  match fuel with
  | O => None
  | S fuel =>
      ask (_prompt NAME_PROMPT py_str false io) collector fs (fun name io =>
      ask (_prompt AGE_PROMPT py_int false io) collector fs (fun age io =>
      ask (_prompt EMAIL_PROMPT py_str false io) collector fs (fun email io =>
      ask (_prompt PHONE_PROMPT py_str false io) collector fs (fun phone io =>
      ask (_prompt NOTES_PROMPT py_str true io) collector fs (fun notes io =>
      let '(added, collector, fs) :=
        add_record collector (clock O) (PStr name) (PInt age) (PStr email)
          (PStr phone) (PStr notes) fs in
      match added with
      | Raise e => Some (Raised (CollectorError e), collector, io, fs)
      | Ok record =>
          let io := print SAVED io in
          let io := show (PrintedRecord record) io in
          let io := show (PrintedLocation (storage_path collector)) io in
          ask (input CONTINUE_PROMPT io) collector fs (fun answer io =>
          if negb (lower_is_y (strip answer)) then
            Some (Returned tt, collector, print GOODBYE io, fs)
          else
            run_cli_loop fuel collector (fun n => clock (S n)) io fs)
      end)))))
  end.

(** [run_cli(storage_path)]: no round of the loop goes without reading a
    line, so the lines to be read bound the rounds. *)
Definition run_cli (storage_path : string) (clock : nat -> datetime)
  (io : console) (fs : filesystem)
  : option (cli_result unit * console * filesystem) :=
  match __init__ storage_path fs with
  | Raise e => Some (Raised (CollectorError e), io, fs)
  | Ok collector =>
      match run_cli_loop (S (length (stdin io))) collector clock
              (print HEADING io) fs with
      | Some (outcome, _, io, fs) => Some (outcome, io, fs)
      | None => None
      end
  end.

(** ** Notions used in the statements about the console *)

(** A line after which [_prompt] asks again: nothing but whitespace when
    empty input is not allowed, or text that [cast] refuses. *)
Definition rejected {A} (cast : str -> option A) (allow_empty : bool)
  (line : str) : bool :=
  match strip line with
  | [] => negb allow_empty
  | value =>
      match cast value with
      | Some _ => false
      | None => true
      end
  end.

(** What [_prompt] prints after a line it rejects. *)
Definition complaint (line : str) : str :=
  match strip line with
  | [] => INPUT_REQUIRED
  | _ => INVALID_FORMAT
  end.

(** What [_prompt] shows while it reads the lines [skipped]. *)
Definition asked_again (prompt : str) (skipped : list str) : list event :=
  flat_map (fun line => [Prompted prompt; Printed (complaint line)]) skipped.

(** Text that neither begins nor ends with whitespace. *)
Definition trimmed (s : str) : bool :=
  negb (isspace (hd 0 s)) && negb (isspace (List.last s 0)).

Definition nonblank (s : str) : bool :=
  negb (bool_decide (s = [])) && trimmed s.

(** A record as a round of [run_cli] makes it: a name, an email and a phone
    number that are trimmed and not empty, an integer age, trimmed notes and
    an ISO-8601 timestamp. *)
Definition typed_in (r : record) : bool :=
  match name r, age r, email r, phone r, notes r, timestamp r with
  | PStr n, PInt _, PStr e, PStr p, PStr o, PStr t =>
      nonblank n && nonblank e && nonblank p && trimmed o && is_iso8601 t
  | _, _, _, _, _, _ => false
  end.

(** The records shown by [print(record)]. *)
Definition printed_records (out : list event) : list record :=
  flat_map (fun e => match e with PrintedRecord r => [r] | _ => [] end) out.

(** How the loop of [run_cli], entered with [collector], [io] and [fs],
    has ended, [new] being the records of the rounds that were completed:
    the storage path is the same, the records of the completed rounds were
    typed in and printed, no other path was touched, and
    - on a return, at least one round was completed and the last save wrote
      the records of the collector;
    - at the end of the input, either no round was completed and the file
      system is as it was, or the last save wrote the records of the
      collector;
    - on an error of the collector, the record of the round under way is in
      the collector, and either the storage file could not be written and
      no round was completed, or the storage file was left empty. *)
Definition loop_ends (collector : DataCollector) (io : console)
  (fs : filesystem) (e : ending) (new : list record) : Prop :=
  let '(r, collector', io', fs') := e in
    storage_path collector' = storage_path collector
    /\ forallb typed_in new = true
    /\ printed_records (stdout io') = printed_records (stdout io) ++ new
    /\ (forall q, q <> storage_path collector -> fs' !! q = fs !! q)
    /\ match r with
       | Returned _ =>
           new <> [] /\ records collector' = records collector ++ new
           /\ exists fs0, readable_or_missing fs0 (storage_path collector)
                          /\ _save collector' fs0 = (Ok tt, fs')
       | Raised EOFError =>
           stdin io' = [] /\ records collector' = records collector ++ new
           /\ ((new = [] /\ fs' = fs)
               \/ exists fs0, readable_or_missing fs0 (storage_path collector)
                              /\ _save collector' fs0 = (Ok tt, fs'))
       | Raised ValueError => False
       | Raised (CollectorError e) =>
           (exists last, records collector'
                         = records collector ++ new ++ [last])
           /\ ((e = PermissionError /\ new = [] /\ fs' = fs
                /\ exists d, fs !! storage_path collector
                             = Some (RegularFile true false d))
               \/ (e = UnicodeEncodeError
                   /\ fs' !! storage_path collector
                      = Some (RegularFile true true [])))
       end.

End Console.

(** ** Concrete instances used in the examples *)

(** Floats kept as the text they were read from. *)
Definition literal_floats : Floats :=
  {| pyfloat := str; float_of_literal := fun s => s; floatstr := fun s => s |}.

Definition DEFAULT_STORAGE : string := "collected_data.json".

(** A file system with one readable and writable file at the default
    storage path. *)
Definition stored (bytes : list Z) : filesystem :=
  {[ DEFAULT_STORAGE := RegularFile true true bytes ]}.

(** The same with a file that may be read but not written. *)
Definition stored_read_only (bytes : list Z) : filesystem :=
  {[ DEFAULT_STORAGE := RegularFile true false bytes ]}.

(** The document of the shape-mismatch property: an array with one mapping
    that has the key [name] only. *)
Definition name_only_document : str :=
  lit "[{" ++ quoted "name" ++ lit ": " ++ quoted "x" ++ lit "}]".

Definition noon : datetime :=
  {| year := 2024; month := 2; day := 29; hour := 12; minute := 0;
     second := 7; datetime_ok := eq_refl |}.

(** The call of the scenario in the specification. *)
Definition somchai : call (F := literal_floats) :=
  {| at_time := noon;
     arg_name := PStr (lit "Somchai");
     arg_age := PInt 30;
     arg_email := PStr (lit "s@example.com");
     arg_phone := PStr (lit "0812345678");
     arg_notes := PStr [] |}.

(** A second call, with characters outside ASCII and characters that JSON
    escapes. *)
Definition malee : call (F := literal_floats) :=
  {| at_time := noon;
     arg_name := PStr [3617; 3634; 3621; 3637; 32; 128512];
     arg_age := PInt (-7);
     arg_email := PStr (lit "m@example.com");
     arg_phone := PStr [QUOTE; BACKSLASH; 10; 13; 1];
     arg_notes := PStr (lit "line") |}.

(** A document whose one mapping has the six keys and values of other types
    than the declared ones. *)
Definition odd_types_document : str :=
  lit "[{" ++ quoted "name" ++ lit ": 1, "
  ++ quoted "age" ++ lit ": " ++ quoted "old" ++ lit ", "
  ++ quoted "email" ++ lit ": null, "
  ++ quoted "phone" ++ lit ": true, "
  ++ quoted "notes" ++ lit ": [], "
  ++ quoted "timestamp" ++ lit ": 2.5}]".

(** The record [_load] builds from it. *)
Definition odd_types_record : record (F := literal_floats) :=
  {| name := PInt 1; age := PStr (lit "old"); email := PNone;
     phone := PBool true; notes := PList [];
     timestamp := PFloat (F := literal_floats) (lit "2.5") |}.

(** An empty collector at the default storage path. *)
Definition empty_collector : DataCollector (F := literal_floats) :=
  {| storage_path := DEFAULT_STORAGE; records := [] |}.

(** The two example calls made one after the other on the empty collector,
    with no file in storage. *)
Definition two_calls
  : list (result record) * DataCollector (F := literal_floats) * filesystem :=
  add_records empty_collector [somchai; malee] ∅.

(** [int] on ASCII numerals: a sign or none, then digits. (Python's [int]
    accepts more: underscores between digits, the other decimal digits of
    Unicode.) *)
Definition ascii_int (s : str) : option Z :=
  let digits t :=
    match t with
    | [] => None
    | _ :: _ => if forallb is_digit t then Some (Z.of_uint (uint_of_digits t))
                else None
    end in
  match s with
  | c :: t =>
      if c =? MINUS then option_map Z.opp (digits t)
      else if c =? PLUS then digits t
      else digits s
  | [] => None
  end.

Definition ascii_builtins : Builtins := {| py_int := ascii_int |}.

(** The clock of the examples: noon in every round. *)
Definition at_noon (round : nat) : datetime := noon.

(** A console with the lines [lines] to read and nothing shown yet. *)
Definition typing (lines : list string)
  : console (F := literal_floats) :=
  {| stdin := List.map lit lines; stdout := [] |}.

(** One round answered without a mistake, ended by [n]. *)
Definition one_round : list string :=
  ["Somchai"; "30"; "s@example.com"; "0812345678"; ""; "n"].

(** A session of two rounds: blank and malformed answers on the way, [Y] to
    go on, the end of the input in place of the last answer. *)
Definition two_rounds : list string :=
  [" "; " Somchai "; "thirty"; "30"; "s@example.com"; "0812345678"; " ";
   " Y "; "Malee"; "-7"; "m@example.com"; "02"; "line"].

(** A call whose name is a lone surrogate, which UTF-8 does not encode. *)
Definition lone_surrogate : call (F := literal_floats) :=
  {| at_time := noon;
     arg_name := PStr [0xD800];
     arg_age := PInt 1;
     arg_email := PStr (lit "x@example.com");
     arg_phone := PStr (lit "0");
     arg_notes := PStr [] |}.

(** The first example call on a collector with no record. *)
Definition somchai_on (fs : filesystem)
  : result record * DataCollector (F := literal_floats) * filesystem :=
  add_record empty_collector (at_time somchai) (arg_name somchai)
    (arg_age somchai) (arg_email somchai) (arg_phone somchai)
    (arg_notes somchai) fs.

(** Answers to the prompt for the age: a blank line, a word, a number with
    spaces around it, and a line more. *)
Definition age_answers : console (F := literal_floats) :=
  typing [" "; "thirty"; " 30 "; "x"].

(** A session of [run_cli] at the default storage path, and the console and
    the file system it leaves. *)
Definition session (lines : list string) (fs : filesystem)
  : option (cli_result unit * console (F := literal_floats) * filesystem) :=
  run_cli (B := ascii_builtins) DEFAULT_STORAGE at_noon (typing lines) fs.

Definition console_after (lines : list string) (fs : filesystem)
  : console (F := literal_floats) :=
  match session lines fs with
  | Some (_, io, _) => io
  | None => typing []
  end.

Definition storage_after (lines : list string) (fs : filesystem)
  : filesystem :=
  match session lines fs with
  | Some (_, _, fs') => fs'
  | None => fs
  end.

(** * Properties *)

Ltac decide_comparisons :=
  repeat match goal with
  | |- context [?a <? ?b] => destruct (Z.ltb_spec a b); try lia
  | |- context [?a <=? ?b] => destruct (Z.leb_spec a b); try lia
  | |- context [?a =? ?b] => destruct (Z.eqb_spec a b); try lia
  end.

Ltac euclid := Z.to_euclidean_division_equations; lia.

(** ** The UTF-8 codec decodes what it encoded *)

Lemma utf8_decode_encode_char c bs rest :
  utf8_encode_char c = Some bs ->
  utf8_decode (bs ++ rest) = prepend c (utf8_decode rest).
Proof.
  unfold utf8_encode_char, is_surrogate.
  destruct (Z.ltb_spec c 0); [discriminate|].
  destruct (Z.ltb_spec c 128).
  { intros [= <-]. cbn [app utf8_decode]. decide_comparisons. reflexivity. }
  destruct (Z.ltb_spec c 2048).
  { intros [= <-]. cbn [app utf8_decode]. unfold is_continuation.
    assert (2 <= c / 64 < 32) by euclid.
    assert (0 <= c mod 64 < 64) by euclid.
    assert (c / 64 * 64 + c mod 64 = c) by euclid.
    generalize dependent (c / 64). generalize dependent (c mod 64). intros.
    decide_comparisons. cbn [andb]. f_equal. lia. }
  destruct (Z.leb_spec 55296 c), (Z.leb_spec c 57343); cbn [andb];
    try (intros; discriminate).
  all: destruct (Z.ltb_spec c 65536); try lia.
  1,3: intros [= <-]; cbn [app utf8_decode]; unfold is_continuation, is_surrogate;
    assert (0 <= c / 4096 < 16) by euclid;
    assert (0 <= (c / 64) mod 64 < 64) by euclid;
    assert (0 <= c mod 64 < 64) by euclid;
    assert (c / 4096 * 4096 + (c / 64) mod 64 * 64 + c mod 64 = c) by euclid;
    generalize dependent (c / 4096); generalize dependent ((c / 64) mod 64);
    generalize dependent (c mod 64); intros;
    cbv zeta; decide_comparisons; cbn [andb negb]; f_equal; lia.
  destruct (Z.ltb_spec c 1114112); [|discriminate].
  intros [= <-]; cbn [app utf8_decode]; unfold is_continuation.
  assert (0 <= c / 262144 < 5) by euclid.
  assert (0 <= (c / 4096) mod 64 < 64) by euclid.
  assert (0 <= (c / 64) mod 64 < 64) by euclid.
  assert (0 <= c mod 64 < 64) by euclid.
  assert (c / 262144 * 262144 + (c / 4096) mod 64 * 4096
          + (c / 64) mod 64 * 64 + c mod 64 = c) by euclid.
  generalize dependent (c / 262144). generalize dependent ((c / 4096) mod 64).
  generalize dependent ((c / 64) mod 64). generalize dependent (c mod 64). intros.
  cbv zeta. decide_comparisons. cbn [andb negb]. f_equal. lia.
Qed.

Lemma utf8_decode_encode s bs :
  utf8_encode s = Some bs -> utf8_decode bs = Some s.
Proof.
  revert bs. induction s as [|c s IH]; intros bs; cbn [utf8_encode].
  - intros [= <-]. reflexivity.
  - destruct (utf8_encode_char c) as [b|] eqn:Ec; [|discriminate].
    destruct (utf8_encode s) as [r|]; [|discriminate].
    intros [= <-]. rewrite (utf8_decode_encode_char _ _ _ Ec), (IH r eq_refl).
    reflexivity.
Qed.

Lemma universal_newlines_id s : no_cr s -> universal_newlines s = s.
Proof.
  induction 1 as [|c s Hc _ IH]; cbn [universal_newlines]; [reflexivity|].
  destruct (Z.eqb_spec c 13); [contradiction|]. now rewrite IH.
Qed.

(** ** Scanning what the encoder wrote: strings *)

Lemma scanstring_escape_char c tail :
  scanstring (escape_char c ++ tail) = scanned_cons c (scanstring tail).
Proof.
  unfold escape_char, QUOTE, BACKSLASH.
  destruct (Z.eqb_spec c 34) as [->|]; [reflexivity|].
  destruct (Z.eqb_spec c 92) as [->|]; [reflexivity|].
  destruct (Z.eqb_spec c 10) as [->|]; [reflexivity|].
  destruct (Z.eqb_spec c 13) as [->|]; [reflexivity|].
  destruct (Z.eqb_spec c 9) as [->|]; [reflexivity|].
  destruct (Z.eqb_spec c 12) as [->|]; [reflexivity|].
  destruct (Z.eqb_spec c 8) as [->|]; [reflexivity|].
  destruct (Z.leb_spec 0 c), (Z.ltb_spec c 32); cbn [andb].
  1: { destruct c as [|p|p]; [reflexivity| |lia].
       do 5 (try (destruct p as [p|p|]; try lia)); reflexivity. }
  all: cbn [app scanstring]; unfold QUOTE, BACKSLASH; decide_comparisons;
    reflexivity.
Qed.

Lemma scanstring_escape s rest :
  scanstring (flat_map escape_char s ++ QUOTE :: rest) = Some (s, rest).
Proof.
  induction s as [|c s IH]; [reflexivity|].
  cbn [flat_map]. rewrite <- app_assoc, scanstring_escape_char, IH.
  reflexivity.
Qed.

(** ** Scanning what the encoder wrote: integers *)

Lemma span_digits_uint u rest :
  ends_number rest = true ->
  span_digits (digits_of_uint u ++ rest) = (digits_of_uint u, rest).
Proof.
  intros Hr. induction u; cbn [digits_of_uint app span_digits];
    try (rewrite IHu; reflexivity).
  destruct rest as [|c t]; [reflexivity|]. cbn [span_digits].
  cbn in Hr. destruct (is_digit c); [discriminate|reflexivity].
Qed.

Lemma uint_of_digits_of_uint u : uint_of_digits (digits_of_uint u) = u.
Proof.
  induction u; cbn [digits_of_uint uint_of_digits]; cbv zeta; rewrite ?IHu;
    reflexivity.
Qed.

Lemma nzhead_not_D0 d d' : Decimal.nzhead d <> Decimal.D0 d'.
Proof. induction d; cbn; try discriminate; assumption. Qed.

Lemma to_uint_unorm p : Decimal.unorm (Pos.to_uint p) = Pos.to_uint p.
Proof.
  rewrite <- (DecimalPos.Unsigned.to_of (Pos.to_uint p)).
  rewrite DecimalPos.Unsigned.of_to. reflexivity.
Qed.

(** [int.__repr__] writes no leading zero. *)
Lemma to_uint_head p :
  exists c ds, digits_of_uint (Pos.to_uint p) = c :: ds /\ 49 <= c <= 57
    /\ exists u, ds = digits_of_uint u.
Proof.
  pose proof (to_uint_unorm p) as E.
  pose proof (DecimalPos.Unsigned.of_to p) as O.
  unfold Decimal.unorm in E.
  destruct (Decimal.nzhead (Pos.to_uint p)) eqn:N;
    [ rewrite <- E in O; discriminate
    | exfalso; apply (nzhead_not_D0 _ _ N)
    | rewrite <- E; cbn; eexists _, _;
      (split; [reflexivity|]); (split; [lia|eauto]) .. ].
Qed.

Lemma match_integer_intstr n rest :
  ends_number rest = true ->
  match_integer (intstr n ++ rest) = Some (intstr n, rest).
Proof.
  intros Hr. unfold intstr. destruct n as [|p|p]; cbn [Z.to_int];
    [reflexivity| |];
    destruct (to_uint_head p) as (c & ds & E & Hc & u & ->);
    unfold match_integer; cbn [digits_of_uint app];
    try (change (45 =? 45) with true; cbn iota);
    rewrite E; cbn [app];
    try (destruct (Z.eqb_spec c 45); [lia|]);
    (destruct (Z.eqb_spec c 48); [lia|]);
    unfold is_digit; (destruct (Z.leb_spec 48 c); [|lia]);
    (destruct (Z.leb_spec c 57); [|lia]);
    cbn [andb]; rewrite span_digits_uint by assumption; reflexivity.
Qed.

Lemma match_number_intstr n rest :
  ends_number rest = true ->
  match_number (intstr n ++ rest) = Some (intstr n, [], [], rest).
Proof.
  intros Hr. unfold match_number. rewrite match_integer_intstr by assumption.
  destruct rest as [|c t]; [reflexivity|]. cbn [ends_number] in Hr.
  apply andb_prop in Hr as [Hr H69]. apply andb_prop in Hr as [Hr H101].
  apply andb_prop in Hr as [_ H46]. apply negb_true_iff in H46, H101, H69.
  unfold match_frac, match_exp. rewrite H46, H101, H69. reflexivity.
Qed.

Lemma int_of_literal_intstr n : int_of_literal (intstr n) = n.
Proof.
  rewrite <- (DecimalZ.of_to n) at 2. unfold intstr, int_of_literal.
  destruct n as [|p|p]; cbn [Z.to_int Z.of_int].
  - reflexivity.
  - destruct (to_uint_head p) as (c & ds & E & Hc & _).
    rewrite <- (uint_of_digits_of_uint (Pos.to_uint p)) at 2. rewrite E.
    destruct (Z.eqb_spec c 45); [lia|reflexivity].
  - change (45 =? 45) with true. cbn iota. now rewrite uint_of_digits_of_uint.
Qed.

Lemma intstr_head n :
  exists c t, intstr n = c :: t /\ (c = 45 \/ 48 <= c <= 57).
Proof.
  unfold intstr. destruct n as [|p|p]; cbn [Z.to_int].
  - eexists _, _. split; [reflexivity|]. lia.
  - destruct (to_uint_head p) as (c & ds & E & Hc & _). rewrite E. eauto with lia.
  - eauto.
Qed.

(** ** The timestamp is ISO-8601 *)

Lemma two_digits_digits2 n :
  0 <= n <= 99 -> two_digits (48 + n / 10) (48 + n mod 10) = Some n.
Proof.
  intros Hn. unfold two_digits, is_digit.
  assert (0 <= n / 10 <= 9) by euclid.
  assert (0 <= n mod 10 <= 9) by euclid.
  assert (n / 10 * 10 + n mod 10 = n) by euclid.
  generalize dependent (n / 10). generalize dependent (n mod 10). intros.
  decide_comparisons. cbn [andb]. f_equal. lia.
Qed.

Lemma days_in_month_bound y m : 28 <= days_in_month y m <= 31.
Proof.
  unfold days_in_month. destruct (m =? 2); [destruct (is_leap y); lia|].
  destruct ((m =? 4) || (m =? 6) || (m =? 9) || (m =? 11)); lia.
Qed.

Lemma is_iso8601_isoformat dt : is_iso8601 (isoformat dt) = true.
Proof.
  destruct dt as [y mo d h mi s ok]. unfold datetime_fields_ok in ok.
  repeat (apply andb_prop in ok as [ok ?]).
  repeat match goal with H : (_ <=? _) = true |- _ => apply Z.leb_le in H end.
  pose proof (days_in_month_bound y mo).
  unfold isoformat, digits4, digits2.
  cbn [year month day hour minute second app is_iso8601].
  assert (E1 : two_digits (48 + y / 1000) (48 + (y / 100) mod 10)
               = Some (y / 100)).
  { replace (y / 1000) with ((y / 100) / 10) by euclid.
    apply two_digits_digits2. euclid. }
  assert (E2 : two_digits (48 + (y / 10) mod 10) (48 + y mod 10)
               = Some (y mod 100)).
  { replace ((y / 10) mod 10) with ((y mod 100) / 10) by euclid.
    replace (y mod 10) with ((y mod 100) mod 10) by euclid.
    apply two_digits_digits2. euclid. }
  rewrite E1, E2, !two_digits_digits2 by lia.
  replace (y / 100 * 100 + y mod 100) with y by euclid.
  change (45 =? 45) with true. change (84 =? 84) with true.
  change (58 =? 58) with true. cbn [andb].
  repeat match goal with
  | |- context [?a <=? ?b] => destruct (Z.leb_spec a b); try lia
  end; reflexivity.
Qed.

Section Properties.

Context {F : Floats}.

(** ** Scanning what the encoder wrote: values, mappings and arrays *)

Lemma skip_whitespace_spaces n s :
  skip_whitespace (repeat 32 n ++ s) = skip_whitespace s.
Proof. induction n; [reflexivity|]. cbn [repeat app]. exact IHn. Qed.

Lemma skip_whitespace_indent level s :
  skip_whitespace (newline_indent level ++ s) = skip_whitespace s.
Proof. unfold newline_indent. cbn [app]. apply skip_whitespace_spaces. Qed.

Lemma skip_whitespace_indent_to level c s :
  is_whitespace c = false ->
  skip_whitespace (newline_indent level ++ c :: s) = c :: s.
Proof.
  intros H. rewrite skip_whitespace_indent. cbn [skip_whitespace]. now rewrite H.
Qed.

Lemma scan_once_flat_value fuel v level rest :
  is_flat v = true -> ends_number rest = true ->
  scan_once (S fuel) (iterencode v level ++ rest) = Scanned v rest.
Proof.
  destruct v; cbn [is_flat is_str is_int orb]; try discriminate; intros _ Hr.
  - cbn [iterencode].
    destruct (intstr_head n) as (c & t & E & Hc).
    pose proof (match_number_intstr n rest Hr) as M.
    pose proof (int_of_literal_intstr n) as I.
    rewrite E in *. cbn [app scan_once] in *. unfold QUOTE.
    assert ((c =? 34) = false) as -> by lia.
    assert ((c =? 123) = false) as -> by lia.
    assert ((c =? 91) = false) as -> by lia.
    cbn [lit list_ascii_of_string List.map startswith].
    change (ord "n") with 110. change (ord "t") with 116.
    change (ord "f") with 102.
    assert ((c =? 110) = false) as -> by lia.
    assert ((c =? 116) = false) as -> by lia.
    assert ((c =? 102) = false) as -> by lia.
    rewrite M. cbn [app]. rewrite I. reflexivity.
  - cbn [iterencode scan_once]. unfold encode_basestring. cbn [app].
    change (QUOTE =? QUOTE) with true. cbn iota.
    rewrite <- app_assoc. cbn [app]. rewrite scanstring_escape.
    reflexivity.
Qed.

Lemma JSONObject_pair_text fuel kv level rest :
  is_flat (snd kv) = true -> ends_number rest = true ->
  exists tail, pair_text level kv ++ rest = QUOTE :: tail
    /\ JSONObject_pair (scan_once (S fuel)) tail = Scanned kv rest.
Proof.
  intros Hv Hr. destruct kv as [k v]. cbn [fst snd] in *.
  unfold pair_text, encode_basestring. cbn [fst snd app].
  eexists. split; [reflexivity|].
  unfold JSONObject_pair. rewrite <- !app_assoc. cbn [app].
  rewrite scanstring_escape. cbn [lit list_ascii_of_string List.map app].
  change (skip_whitespace (ord ":" :: ord " " :: ?s))
    with (ord ":" :: ord " " :: s).
  change (ord ":" =? 58) with true. cbn iota.
  change (skip_whitespace (ord " " :: ?s)) with (skip_whitespace s).
  destruct (iterencode v level ++ rest) as [|z tl] eqn:E.
  { destruct v; try discriminate.
    - destruct (intstr_head n) as (c & t & E' & _). cbn in E.
      rewrite E' in E. discriminate. }
  assert (W : is_whitespace z = false).
  { destruct v; try discriminate.
    - destruct (intstr_head n) as (c & t & E' & Hc). cbn in E. rewrite E' in E.
      injection E as -> _. unfold is_whitespace. lia.
    - injection E as <- _. reflexivity. }
  cbn [skip_whitespace]. rewrite W, <- E.
  rewrite scan_once_flat_value by assumption. reflexivity.
Qed.

Lemma dict_setitem_fresh d k v :
  k ∉ List.map fst d -> dict_setitem d k v = d ++ [(k, v)].
Proof.
  induction d as [|[k' v'] d IH]; [reflexivity|].
  cbn [List.map fst dict_setitem app].
  intros Hk. rewrite not_elem_of_cons in Hk. destruct Hk as [Hne Hk].
  rewrite bool_decide_eq_false_2 by congruence. now rewrite IH.
Qed.

Lemma fold_dict_setitem_fresh pairs d :
  NoDup (List.map fst (d ++ pairs)) ->
  fold_left (fun d kv => dict_setitem d (fst kv) (snd kv)) pairs d = d ++ pairs.
Proof.
  revert d. induction pairs as [|[k v] pairs IH]; intros d Hd.
  - now rewrite app_nil_r.
  - cbn [fold_left fst snd]. rewrite dict_setitem_fresh.
    + rewrite IH; rewrite <- app_assoc; [reflexivity|exact Hd].
    + rewrite map_app in Hd. apply NoDup_app in Hd as (_ & Hd & _).
      intros Hin. apply (Hd k Hin). cbn. left.
Qed.

Lemma dict_of_pairs_NoDup d :
  NoDup (List.map fst d) -> dict_of_pairs d = d.
Proof. intros Hd. unfold dict_of_pairs. now rewrite fold_dict_setitem_fresh. Qed.

Lemma separated_cons {A} level (text : A -> str) x l :
  separated level text (x :: l)
  = 44 :: newline_indent level ++ text x ++ separated level text l.
Proof. unfold separated. cbn [flat_map]. now rewrite <- app_assoc. Qed.

Lemma join_separated {A} level (text : A -> str) x l :
  join (44 :: newline_indent level) (List.map text (x :: l))
  = text x ++ separated level text l.
Proof.
  unfold separated. cbn [List.map join]. f_equal.
  now rewrite !flat_map_concat_map, map_map.
Qed.

Lemma separated_length {A} level (text : A -> str) l :
  (length l <= length (separated level text l))%nat.
Proof.
  induction l as [|x l IH]; [reflexivity|].
  rewrite separated_cons. cbn [length]. rewrite !length_app. lia.
Qed.

Lemma ends_number_separated {A} level (text : A -> str) l level' c rest :
  ends_number (separated level text l ++ newline_indent level' ++ c :: rest)
  = true.
Proof. destruct l; reflexivity. Qed.

Lemma JSONObject_loop_close scan fuel pairs s t :
  skip_whitespace s = 125 :: t ->
  JSONObject_loop scan (S fuel) pairs s
  = Scanned (PDict (dict_of_pairs pairs)) t.
Proof. intros E. cbn [JSONObject_loop]. now rewrite E. Qed.

Lemma JSONObject_loop_next scan fuel pairs s t t1 kv rest :
  skip_whitespace s = 44 :: t -> skip_whitespace t = QUOTE :: t1 ->
  JSONObject_pair scan t1 = Scanned kv rest ->
  JSONObject_loop scan (S fuel) pairs s
  = JSONObject_loop scan fuel (pairs ++ [kv]) rest.
Proof. intros E1 E2 E3. cbn [JSONObject_loop]. now rewrite E1, E2, E3. Qed.

Lemma JSONObject_first scan fuel s t kv rest :
  skip_whitespace s = QUOTE :: t ->
  JSONObject_pair scan t = Scanned kv rest ->
  JSONObject scan fuel s = JSONObject_loop scan fuel [kv] rest.
Proof. intros E1 E2. unfold JSONObject. now rewrite E1, E2. Qed.

Lemma scan_once_object fuel t :
  scan_once (S fuel) (123 :: t) = JSONObject (scan_once fuel) fuel t.
Proof. reflexivity. Qed.

Lemma scan_once_array fuel t :
  scan_once (S fuel) (91 :: t) = JSONArray (scan_once fuel) fuel t.
Proof. reflexivity. Qed.

Lemma JSONObject_loop_text f d : forall fuel pairs level rest,
  (length d < fuel)%nat -> Forall (fun kv => is_flat (snd kv) = true) d ->
  JSONObject_loop (scan_once (S f)) fuel pairs
    (separated (S level) (pair_text (S level)) d
     ++ newline_indent level ++ 125 :: rest)
  = Scanned (PDict (dict_of_pairs (pairs ++ d))) rest.
Proof.
  induction d as [|kv d IH]; intros fuel pairs level rest Hf Hd;
    (destruct fuel; [cbn in Hf; lia|]).
  - rewrite app_nil_r. apply JSONObject_loop_close.
    now apply skip_whitespace_indent_to.
  - inversion Hd as [|? ? Hkv Hd']; subst.
    destruct (JSONObject_pair_text f kv (S level)
                (separated (S level) (pair_text (S level)) d
                 ++ newline_indent level ++ 125 :: rest) Hkv
                (ends_number_separated _ _ _ _ _ _)) as (tail & E & P).
    rewrite separated_cons. cbn [app]. rewrite <- !app_assoc.
    erewrite JSONObject_loop_next; [|reflexivity| |exact P].
    + rewrite IH by (cbn in Hf; first [lia | assumption]).
      now rewrite <- app_assoc.
    + rewrite E. now apply skip_whitespace_indent_to.
Qed.

Lemma iterencode_dict kv d level :
  iterencode (PDict (kv :: d)) level
  = 123 :: newline_indent (S level) ++ pair_text (S level) kv
    ++ separated (S level) (pair_text (S level)) d
    ++ newline_indent level ++ [125].
Proof.
  cbn [iterencode]. fold (pair_text (S level)).
  rewrite join_separated, <- !app_assoc. reflexivity.
Qed.

Lemma scan_once_flat_dict f d level rest :
  d <> [] -> (length d <= S f)%nat ->
  Forall (fun kv => is_flat (snd kv) = true) d -> NoDup (List.map fst d) ->
  scan_once (S (S f)) (iterencode (PDict d) level ++ rest)
  = Scanned (PDict d) rest.
Proof.
  intros Hne Hf Hd Hnd. destruct d as [|kv d]; [contradiction|].
  inversion Hd as [|? ? Hkv Hd']; subst.
  destruct (JSONObject_pair_text f kv (S level)
              (separated (S level) (pair_text (S level)) d
               ++ newline_indent level ++ 125 :: rest) Hkv
              (ends_number_separated _ _ _ _ _ _)) as (tail & E & P).
  rewrite iterencode_dict. cbn [app]. rewrite scan_once_object, <- !app_assoc.
  erewrite JSONObject_first; [| |exact P].
  - rewrite JSONObject_loop_text by (cbn in Hf; first [lia|assumption]).
    now rewrite dict_of_pairs_NoDup.
  - cbn [app]. rewrite E. now apply skip_whitespace_indent_to.
Qed.

Lemma scan_once_record f r level rest :
  (5 <= f)%nat -> flat_record r = true ->
  scan_once (S (S f)) (record_text level r ++ rest) = Scanned (asdict r) rest.
Proof.
  intros Hf Hr. unfold flat_record in Hr.
  repeat (apply andb_prop in Hr as [Hr ?]).
  unfold record_text, asdict. apply scan_once_flat_dict.
  - discriminate.
  - cbn [length]. lia.
  - repeat (apply List.Forall_cons; [assumption|]). apply List.Forall_nil.
  - cbn [List.map fst]. apply (bool_decide_unpack _). vm_compute. exact I.
Qed.

Lemma JSONArray_loop_close scan fuel values s t :
  skip_whitespace s = 93 :: t ->
  JSONArray_loop scan (S fuel) values s = Scanned (PList values) t.
Proof. intros E. cbn [JSONArray_loop]. now rewrite E. Qed.

Lemma JSONArray_loop_next scan fuel values s t value rest :
  skip_whitespace s = 44 :: t ->
  scan (skip_whitespace t) = Scanned value rest ->
  JSONArray_loop scan (S fuel) values s
  = JSONArray_loop scan fuel (values ++ [value]) rest.
Proof. intros E1 E2. cbn [JSONArray_loop]. now rewrite E1, E2. Qed.

Lemma JSONArray_first scan fuel s c t value rest :
  skip_whitespace s = c :: t -> c <> 93 ->
  scan (c :: t) = Scanned value rest ->
  JSONArray scan fuel s = JSONArray_loop scan fuel [value] rest.
Proof.
  intros E1 Hc E2. unfold JSONArray. rewrite E1.
  destruct (Z.eqb_spec c 93); [contradiction|]. now rewrite E2.
Qed.

Lemma record_text_head level r :
  exists t, record_text level r = 123 :: t.
Proof. eexists. reflexivity. Qed.

Lemma JSONArray_loop_text f rs : forall fuel values level rest,
  (5 <= f)%nat -> (length rs < fuel)%nat -> forallb flat_record rs = true ->
  JSONArray_loop (scan_once (S (S f))) fuel values
    (separated (S level) (record_text (S level)) rs
     ++ newline_indent level ++ 93 :: rest)
  = Scanned (PList (values ++ List.map asdict rs)) rest.
Proof.
  induction rs as [|r rs IH]; intros fuel values level rest Hf Hl Hrs;
    (destruct fuel; [cbn in Hl; lia|]).
  - rewrite app_nil_r. apply JSONArray_loop_close.
    now apply skip_whitespace_indent_to.
  - cbn [forallb] in Hrs. apply andb_prop in Hrs as [Hr Hrs].
    rewrite separated_cons. cbn [app]. rewrite <- !app_assoc.
    destruct (record_text_head (S level) r) as [t Et].
    erewrite JSONArray_loop_next; [|reflexivity|].
    + rewrite IH by (cbn in Hl; first [lia | assumption]).
      cbn [List.map]. now rewrite <- app_assoc.
    + rewrite skip_whitespace_indent. rewrite Et. cbn [app skip_whitespace].
      change (is_whitespace 123) with false. cbv iota.
      change (123 :: t ++ ?x) with ((123 :: t) ++ x). rewrite <- Et.
      now apply scan_once_record.
Qed.

Lemma iterencode_records r rs level :
  iterencode (PList (List.map asdict (r :: rs))) level
  = 91 :: newline_indent (S level) ++ record_text (S level) r
    ++ separated (S level) (record_text (S level)) rs
    ++ newline_indent level ++ [93].
Proof.
  change (iterencode (PList (List.map asdict (r :: rs))) level)
    with ([91] ++ newline_indent (S level)
          ++ join (44 :: newline_indent (S level))
               (List.map (fun v => iterencode v (S level))
                  (List.map asdict (r :: rs)))
          ++ newline_indent level ++ [93]).
  rewrite map_map.
  change (fun x => iterencode (asdict x) (S level)) with (record_text (S level)).
  rewrite join_separated, <- !app_assoc. reflexivity.
Qed.

Lemma scan_once_records f rs level rest :
  (5 <= f)%nat -> (length rs <= S (S f))%nat -> forallb flat_record rs = true ->
  rs <> [] ->
  scan_once (S (S (S f))) (iterencode (PList (List.map asdict rs)) level ++ rest)
  = Scanned (PList (List.map asdict rs)) rest.
Proof.
  intros Hf Hl Hrs Hne. destruct rs as [|r rs]; [contradiction|].
  cbn [forallb] in Hrs. apply andb_prop in Hrs as [Hr Hrs].
  rewrite iterencode_records. cbn [app]. rewrite <- ?app_assoc. cbn [app].
  rewrite scan_once_array.
  destruct (record_text_head (S level) r) as [t Et].
  rewrite (JSONArray_first _ _ _ 123
             (t ++ separated (S level) (record_text (S level)) rs
                ++ newline_indent level ++ 93 :: rest)
             (asdict r)
             (separated (S level) (record_text (S level)) rs
                ++ newline_indent level ++ 93 :: rest)).
  - rewrite JSONArray_loop_text by (cbn in Hl; first [lia|assumption]).
    reflexivity.
  - rewrite skip_whitespace_indent, Et. reflexivity.
  - discriminate.
  - change (123 :: t ++ ?x) with ((123 :: t) ++ x). rewrite <- Et.
    now apply scan_once_record.
Qed.

(** [json.loads] reads back the array of mappings [json.dumps] wrote, for
    records of strings and integers. *)
Lemma json_loads_dumps_records rs :
  forallb flat_record rs = true ->
  json_loads (json_dumps (PList (List.map asdict rs)))
  = Ok (PList (List.map asdict rs)).
Proof.
  intros Hrs. destruct rs as [|r rs]; [reflexivity|].
  unfold json_dumps, json_loads.
  pose proof (iterencode_records r rs 0) as E.
  destruct (record_text_head 1 r) as [t Et].
  pose proof (separated_length 1 (record_text 1) rs) as L.
  remember (iterencode (PList (List.map asdict (r :: rs))) 0) as text eqn:Ht.
  assert (Hlen : (length rs + 7 <= length text)%nat).
  { rewrite E, Et. cbn [length]. rewrite !length_app.
    change (length (newline_indent 1)) with 3%nat.
    change (length (newline_indent 0)) with 1%nat. cbn [length]. lia. }
  assert (Hs : skip_whitespace text = text) by (rewrite E; reflexivity).
  assert (Hb : startswith [65279] text = None) by (rewrite E; reflexivity).
  rewrite Hb, Hs.
  destruct (length text) as [|[|n]] eqn:El; [lia|lia|].
  rewrite <- (app_nil_r text), Ht.
  rewrite scan_once_records; try assumption; try discriminate;
    try (cbn [length]; lia).
  reflexivity.
Qed.

Lemma Record_kwargs_asdict r : Record_kwargs (asdict r) = Ok r.
Proof. destruct r. reflexivity. Qed.

Lemma comprehension_asdict rs :
  comprehension Record_kwargs (List.map asdict rs) = Ok rs.
Proof.
  induction rs as [|r rs IH]; [reflexivity|].
  cbn [List.map comprehension]. rewrite Record_kwargs_asdict, IH. reflexivity.
Qed.

(** ** No carriage return in a document of strings and integers *)

Lemma no_cr_app s t : no_cr s -> no_cr t -> no_cr (s ++ t).
Proof. apply Forall_app_2. Qed.

Lemma no_cr_escape_char c : no_cr (escape_char c).
Proof.
  unfold escape_char, QUOTE, BACKSLASH, no_cr.
  destruct (Z.eqb_spec c 34); [repeat constructor; lia|].
  destruct (Z.eqb_spec c 92); [repeat constructor; lia|].
  destruct (Z.eqb_spec c 10); [repeat constructor; lia|].
  destruct (Z.eqb_spec c 13); [repeat constructor; lia|].
  destruct (Z.eqb_spec c 9); [repeat constructor; lia|].
  destruct (Z.eqb_spec c 12); [repeat constructor; lia|].
  destruct (Z.eqb_spec c 8); [repeat constructor; lia|].
  destruct (Z.leb_spec 0 c), (Z.ltb_spec c 32); cbn [andb];
    repeat constructor; try lia; unfold hex_char; decide_comparisons; euclid.
Qed.

Lemma no_cr_encode_basestring s : no_cr (encode_basestring s).
Proof.
  unfold encode_basestring.
  change (no_cr ([QUOTE] ++ flat_map escape_char s ++ [QUOTE])).
  apply no_cr_app; [repeat constructor; discriminate|].
  apply no_cr_app; [|repeat constructor; discriminate].
  induction s as [|c s IH]; [constructor|]. cbn [flat_map].
  apply no_cr_app; [apply no_cr_escape_char|exact IH].
Qed.

Lemma no_cr_digits u : no_cr (digits_of_uint u).
Proof.
  induction u; cbn [digits_of_uint]; constructor; try assumption; lia.
Qed.

Lemma no_cr_intstr n : no_cr (intstr n).
Proof.
  unfold intstr. destruct (Z.to_int n); [apply no_cr_digits|].
  constructor; [lia|apply no_cr_digits].
Qed.

Lemma no_cr_newline_indent level : no_cr (newline_indent level).
Proof.
  unfold newline_indent. constructor; [lia|].
  induction (2 * level)%nat; cbn [repeat]; constructor; [lia|assumption].
Qed.

Lemma no_cr_flat_value v level : is_flat v = true -> no_cr (iterencode v level).
Proof.
  destruct v; cbn; try discriminate; intros _.
  - apply no_cr_intstr.
  - apply no_cr_encode_basestring.
Qed.

Lemma no_cr_separated {A} level (text : A -> str) l :
  Forall (fun x => no_cr (text x)) l -> no_cr (separated level text l).
Proof.
  induction 1 as [|x l Hx _ IH]; [constructor|]. rewrite separated_cons.
  constructor; [lia|]. repeat apply no_cr_app; auto using no_cr_newline_indent.
Qed.

Lemma no_cr_pair_text level kv :
  is_flat (snd kv) = true -> no_cr (pair_text level kv).
Proof.
  intros H. unfold pair_text.
  apply no_cr_app; [apply no_cr_encode_basestring|].
  apply no_cr_app; [|now apply no_cr_flat_value].
  change (no_cr [58; 32]). repeat constructor; lia.
Qed.

Lemma no_cr_record_text level r :
  flat_record r = true -> no_cr (record_text level r).
Proof.
  intros Hr. unfold flat_record in Hr. repeat (apply andb_prop in Hr as [Hr ?]).
  unfold record_text, asdict. rewrite iterencode_dict.
  apply List.Forall_cons; [lia|].
  apply no_cr_app; [apply no_cr_newline_indent|].
  apply no_cr_app; [now apply no_cr_pair_text|].
  apply no_cr_app.
  { apply no_cr_separated.
    repeat (apply List.Forall_cons; [now apply no_cr_pair_text|]).
    apply List.Forall_nil. }
  apply no_cr_app; [apply no_cr_newline_indent|].
  apply List.Forall_cons; [lia|apply List.Forall_nil].
Qed.

Lemma no_cr_document rs :
  forallb flat_record rs = true ->
  no_cr (json_dumps (PList (List.map asdict rs))).
Proof.
  intros Hrs. unfold json_dumps. destruct rs as [|r rs].
  - repeat constructor; discriminate.
  - cbn [forallb] in Hrs. apply andb_prop in Hrs as [Hr Hrs].
    rewrite iterencode_records. apply List.Forall_cons; [lia|].
    apply no_cr_app; [apply no_cr_newline_indent|].
    apply no_cr_app; [now apply no_cr_record_text|].
    apply no_cr_app.
    { apply no_cr_separated. rewrite forallb_forall in Hrs.
      apply List.Forall_forall. intros x Hx. apply no_cr_record_text, Hrs, Hx. }
    apply no_cr_app; [apply no_cr_newline_indent|].
    apply List.Forall_cons; [lia|apply List.Forall_nil].
Qed.

(** ** Saving and loading *)

Lemma read_text_written (fs : filesystem) path text bytes w :
  utf8_encode text = Some bytes -> no_cr text ->
  read_text (<[path := RegularFile true w bytes]> fs) path = Ok text.
Proof.
  intros He Hn. unfold read_text. rewrite lookup_insert_eq.
  rewrite (utf8_decode_encode _ _ He), universal_newlines_id by exact Hn.
  reflexivity.
Qed.

Lemma init_ok_readable path fs self :
  __init__ path fs = Ok self -> readable_or_missing fs path.
Proof.
  unfold __init__, _load, exists_, read_text, readable_or_missing.
  destruct (fs !! path) as [[|[] w d]|]; cbn; try discriminate; trivial.
Qed.

Lemma init_storage_path path fs self :
  __init__ path fs = Ok self -> storage_path self = path.
Proof.
  unfold __init__. destruct (_load path fs); cbn; [|discriminate].
  now intros [= <-].
Qed.

(** A collector of strings and integers that saved without error is what a
    fresh collector loads. *)
Lemma save_then_load self fs fs' :
  readable_or_missing fs (storage_path self) ->
  forallb flat_record (records self) = true ->
  _save self fs = (Ok tt, fs') ->
  __init__ (storage_path self) fs' = Ok self.
Proof.
  intros Hr Hflat. unfold _save, write_text, readable_or_missing in *.
  set (text := json_dumps (PList (List.map asdict (records self)))).
  assert (Hload : forall w bytes, utf8_encode text = Some bytes ->
            __init__ (storage_path self)
              (<[storage_path self := RegularFile true w bytes]> fs) = Ok self).
  { intros w bytes He. unfold __init__, _load, exists_.
    rewrite (read_text_written _ _ text bytes w He (no_cr_document _ Hflat)).
    rewrite lookup_insert_eq. cbn [negb bind]. subst text.
    rewrite json_loads_dumps_records by assumption. cbn [iter bind].
    rewrite comprehension_asdict. destruct self; reflexivity. }
  destruct (fs !! storage_path self) as [[|r [] d]|] eqn:El; try discriminate.
  - destruct r; [|contradiction].
    destruct (utf8_encode text) eqn:He; [|discriminate].
    intros [= <-]. now apply Hload.
  - destruct (utf8_encode text) eqn:He; [|discriminate].
    intros [= <-]. now apply Hload.
Qed.

(** What [add_record] returns, in terms of [_save] on the grown collector. *)
Lemma add_record_unfold self c fs :
  let self' := {| storage_path := storage_path self;
                  records := records self ++ [new_record c] |} in
  add_record self (at_time c) (arg_name c) (arg_age c) (arg_email c)
    (arg_phone c) (arg_notes c) fs
  = (match fst (_save self' fs) with
     | Ok _ => Ok (new_record c)
     | Raise e => Raise e
     end, self', snd (_save self' fs)).
Proof.
  cbv zeta. unfold add_record. fold (new_record c).
  destruct (_save _ fs) as [[[]|e] fs']; reflexivity.
Qed.

Lemma record_conforms_flat r : record_conforms r = true -> flat_record r = true.
Proof.
  unfold record_conforms, flat_record, is_flat. intros H.
  repeat (apply andb_prop in H as [H ?]).
  destruct (timestamp r); try discriminate.
  repeat match goal with E : _ = true |- _ => rewrite E; clear E end.
  cbn. now rewrite !orb_true_r.
Qed.

Lemma new_record_conforms c :
  declared_types c = true -> record_conforms (new_record c) = true.
Proof.
  unfold declared_types, record_conforms, new_record. cbn.
  intros ->. apply is_iso8601_isoformat.
Qed.

(** The collector after a sequence of calls, whatever their outcomes. *)
Lemma add_records_collector calls : forall self fs outcomes self' fs',
  add_records self calls fs = (outcomes, self', fs') ->
  storage_path self' = storage_path self
  /\ records self' = records self ++ List.map new_record calls
  /\ length outcomes = length calls.
Proof.
  induction calls as [|c calls IH]; intros self fs outcomes self' fs'.
  - cbn. intros [= <- <- <-]. now rewrite app_nil_r.
  - cbn [add_records]. rewrite add_record_unfold. cbv zeta.
    destruct (add_records _ calls _) as [[os s2] f2] eqn:E.
    intros [= <- <- <-]. destruct (IH _ _ _ _ _ E) as (H1 & H2 & H3).
    cbn in *. rewrite H1, H2, H3, <- app_assoc. auto.
Qed.

Lemma add_records_outcomes calls : forall self fs outcomes self' fs',
  add_records self calls fs = (outcomes, self', fs') ->
  forallb is_ok outcomes = true ->
  outcomes = List.map (fun c => Ok (new_record c)) calls.
Proof.
  induction calls as [|c calls IH]; intros self fs outcomes self' fs'.
  - cbn. now intros [= <- <- <-].
  - cbn [add_records]. rewrite add_record_unfold. cbv zeta.
    destruct (add_records _ calls _) as [[os s2] f2] eqn:E.
    intros [= <- <- <-]. cbn [forallb List.map]. intros H.
    apply andb_prop in H as [H1 H2]. rewrite (IH _ _ _ _ _ E H2).
    destruct (fst (_save _ fs)); [reflexivity|discriminate].
Qed.

(** ** The scanner never runs out of fuel *)

Lemma skip_whitespace_length s : (length (skip_whitespace s) <= length s)%nat.
Proof.
  induction s as [|c s IH]; [reflexivity|]. cbn [skip_whitespace].
  destruct (is_whitespace c); cbn [length]; lia.
Qed.

Lemma skip_whitespace_cons s c t :
  skip_whitespace s = c :: t -> (length t < length s)%nat.
Proof.
  intros E. pose proof (skip_whitespace_length s) as L. rewrite E in L.
  cbn [length] in L. lia.
Qed.

Lemma scanned_cons_length c r s rest n :
  scanned_cons c r = Some (s, rest) ->
  (forall s' rest', r = Some (s', rest') -> (length rest' < n)%nat) ->
  (length rest < n)%nat.
Proof.
  destruct r as [[s' rest']|]; [|discriminate]. cbn. intros [= <- <-] H. eauto.
Qed.

Lemma scanstring_length_bounded n : forall s v rest,
  (length s <= n)%nat ->
  scanstring s = Some (v, rest) -> (length rest < length s)%nat.
Proof.
  induction n as [|n IHn]; intros s v rest Hn.
  { destruct s; [discriminate|cbn in Hn; lia]. }
  assert (IH : forall y, (length y < length s)%nat -> forall v rest,
            scanstring y = Some (v, rest) -> (length rest < length y)%nat).
  { intros y Hy v' rest'. apply IHn. lia. }
  clear IHn Hn. revert v rest.
  intros v rest. destruct s as [|c t]; [discriminate|]. cbn [scanstring length].
  assert (K : forall t' c' v' rest', (length t' <= length t)%nat ->
            scanned_cons c' (scanstring t') = Some (v', rest') ->
            (length rest' < S (length t))%nat).
  { intros t' c' v' rest' Ht E. eapply scanned_cons_length; [exact E|].
    intros s' r' E'. apply IH in E'; cbn [length]; lia. }
  destruct (c =? QUOTE); [intros [= <- <-]; lia|].
  destruct (c =? BACKSLASH).
  - destruct t as [|esc t1]; [discriminate|]. destruct (esc =? 117).
    + destruct t1 as [|h1 [|h2 [|h3 [|h4 t2]]]]; try discriminate.
      destruct (decode_uXXXX h1 h2 h3 h4) as [uni|]; [|discriminate].
      assert (K2 : forall v' rest', scanned_cons uni (scanstring t2) = Some (v', rest') ->
                (length rest' < S (length (esc :: h1 :: h2 :: h3 :: h4 :: t2)))%nat).
      { intros v' rest' E. apply K in E; cbn [length] in *; lia. }
      destruct ((55296 <=? uni) && (uni <=? 56319)); [|apply K2].
      destruct t2 as [|b [|u t3]]; try apply K2.
      destruct ((b =? BACKSLASH) && (u =? 117)); [|apply K2].
      destruct t3 as [|g1 [|g2 [|g3 [|g4 t4]]]]; try discriminate.
      destruct (decode_uXXXX g1 g2 g3 g4) as [uni2|]; [|discriminate].
      destruct ((56320 <=? uni2) && (uni2 <=? 57343)); [|apply K2].
      intros E. apply K in E; cbn [length] in *; lia.
    + destruct (backslash_table esc); [|discriminate].
      intros E. apply K in E; cbn [length] in *; lia.
  - destruct ((0 <=? c) && (c <? 32)); [discriminate|].
    intros E. apply K in E; lia.
Qed.

Lemma scanstring_length s v rest :
  scanstring s = Some (v, rest) -> (length rest < length s)%nat.
Proof. apply (scanstring_length_bounded (length s)). lia. Qed.

Lemma startswith_length word s rest :
  startswith word s = Some rest -> (length rest + length word = length s)%nat.
Proof.
  revert s. induction word as [|w word IH]; intros s; cbn [startswith].
  - intros [= <-]. cbn. lia.
  - destruct s as [|c t]; [discriminate|]. destruct (c =? w); [|discriminate].
    intros E. apply IH in E. cbn [length]. lia.
Qed.

Lemma span_digits_length s ds rest :
  span_digits s = (ds, rest) -> (length rest <= length s)%nat.
Proof.
  revert ds rest. induction s as [|c t IH]; intros ds rest; cbn [span_digits].
  - intros [= <- <-]. reflexivity.
  - destruct (is_digit c).
    + destruct (span_digits t) as [a b]. intros [= <- <-].
      specialize (IH _ _ eq_refl). cbn [length]. lia.
    + intros [= <- <-]. reflexivity.
Qed.

Lemma match_number_length s integer frac exp rest :
  match_number s = Some (integer, frac, exp, rest) ->
  (length rest < length s)%nat.
Proof.
  unfold match_number.
  destruct (match_integer s) as [[i s1]|] eqn:Ei; [|discriminate].
  assert (L1 : (length s1 < length s)%nat).
  { unfold match_integer in Ei.
    assert (G : forall sign s0, (length s0 <= length s)%nat ->
              match s0 with
              | [] => None
              | c :: t =>
                  if c =? 48 then Some (sign ++ [48], t)
                  else if is_digit c
                       then let '(ds, rest) := span_digits t in
                            Some (sign ++ c :: ds, rest)
                       else None
              end = Some (i, s1) -> (length s1 < length s)%nat).
    { intros sign [|c t] Hl; [discriminate|]. cbn [length] in Hl.
      destruct (c =? 48); [intros [= <- <-]; lia|].
      destruct (is_digit c); [|discriminate].
      destruct (span_digits t) as [a b] eqn:Es. intros [= <- <-].
      apply span_digits_length in Es. lia. }
    destruct s as [|c t]; [discriminate|].
    destruct (c =? 45); [apply (G [45] t)|apply (G [] (c :: t))];
      try exact Ei; cbn [length]; lia. }
  assert (L2 : forall s2 f, match_frac s1 = (f, s2) -> (length s2 <= length s1)%nat).
  { intros s2 f. unfold match_frac. destruct s1 as [|c t]; [now intros [= <- <-]|].
    destruct (c =? 46); [|now intros [= <- <-]].
    destruct (span_digits t) as [[|d ds] b] eqn:Es; intros [= <- <-]; [lia|].
    apply span_digits_length in Es. cbn [length]. lia. }
  destruct (match_frac s1) as [f s2] eqn:Ef. specialize (L2 _ _ eq_refl).
  assert (L3 : forall s3 e, match_exp s2 = (e, s3) -> (length s3 <= length s2)%nat).
  { intros s3 e. unfold match_exp. destruct s2 as [|c t]; [now intros [= <- <-]|].
    destruct ((c =? 101) || (c =? 69)); [|now intros [= <- <-]].
    destruct t as [|d t']; [|destruct ((d =? 45) || (d =? 43))];
      cbv beta iota zeta;
      match goal with
      | |- context [span_digits ?x] =>
          destruct (span_digits x) as [[|d0 ds] b] eqn:Es
      end; intros [= <- <-]; try (apply span_digits_length in Es);
      cbn [length] in *; lia. }
  destruct (match_exp s2) as [e s3] eqn:Ee. specialize (L3 _ _ eq_refl).
  intros [= <- <- <- <-]. lia.
Qed.

Lemma shrinks_at_Invalid {A} s : shrinks_at (@Invalid A) s.
Proof. split; [discriminate|]. discriminate. Qed.

Lemma shrinks_at_Scanned {A} (v : A) rest s :
  (length rest < length s)%nat -> shrinks_at (Scanned v rest) s.
Proof. intros H. split; [discriminate|]. now intros ? ? [= <- <-]. Qed.

Lemma shrinks_at_le {A} (r : scan A) s s' :
  shrinks_at r s -> (length s <= length s')%nat -> shrinks_at r s'.
Proof. intros [H1 H2] L. split; [exact H1|]. intros v rest E. apply H2 in E. lia. Qed.

Lemma JSONArray_loop_shrinks scan n (Hscan : shrinks scan n) :
  forall fuel values s, (length s < fuel)%nat -> (length s < n)%nat ->
  shrinks_at (JSONArray_loop scan fuel values s) s.
Proof.
  induction fuel as [|fuel IH]; intros values s Hf Hn; [lia|].
  cbn [JSONArray_loop]. destruct (skip_whitespace s) as [|c t] eqn:E;
    [apply shrinks_at_Invalid|].
  apply skip_whitespace_cons in E.
  destruct (c =? 93); [now apply shrinks_at_Scanned|].
  destruct (c =? 44); [|apply shrinks_at_Invalid].
  pose proof (skip_whitespace_length t) as Lt.
  destruct (Hscan (skip_whitespace t)) as [H1 H2]; [lia|].
  destruct (scan (skip_whitespace t)) as [value rest| |] eqn:Es;
    [|apply shrinks_at_Invalid|contradiction].
  specialize (H2 _ _ eq_refl).
  apply (shrinks_at_le _ rest); [|lia]. apply IH; lia.
Qed.

Lemma JSONArray_shrinks scan n (Hscan : shrinks scan n) fuel s :
  (length s < fuel)%nat -> (length s < n)%nat ->
  shrinks_at (JSONArray scan fuel s) (91 :: s).
Proof.
  intros Hf Hn. unfold JSONArray.
  destruct (skip_whitespace s) as [|c t] eqn:E; [apply shrinks_at_Invalid|].
  pose proof (skip_whitespace_length s) as Ls. rewrite E in Ls.
  destruct (c =? 93).
  { apply shrinks_at_Scanned. cbn [length] in *. lia. }
  destruct (Hscan (c :: t)) as [H1 H2]; [lia|].
  destruct (scan (c :: t)) as [value rest| |] eqn:Es;
    [|apply shrinks_at_Invalid|contradiction].
  specialize (H2 _ _ eq_refl).
  apply (shrinks_at_le _ rest); [|cbn [length]; lia].
  apply (JSONArray_loop_shrinks _ _ Hscan); lia.
Qed.

Lemma JSONObject_pair_shrinks scan n (Hscan : shrinks scan n) s :
  (length s < n)%nat -> shrinks_at (JSONObject_pair scan s) s.
Proof.
  intros Hn. unfold JSONObject_pair.
  destruct (scanstring s) as [[key s1]|] eqn:Ek; [|apply shrinks_at_Invalid].
  apply scanstring_length in Ek.
  destruct (skip_whitespace s1) as [|c t] eqn:E; [apply shrinks_at_Invalid|].
  apply skip_whitespace_cons in E.
  destruct (c =? 58); [|apply shrinks_at_Invalid].
  pose proof (skip_whitespace_length t) as Lt.
  destruct (Hscan (skip_whitespace t)) as [H1 H2]; [lia|].
  destruct (scan (skip_whitespace t)) as [value rest| |] eqn:Es;
    [|apply shrinks_at_Invalid|contradiction].
  specialize (H2 _ _ eq_refl). apply shrinks_at_Scanned. lia.
Qed.

Lemma JSONObject_loop_shrinks scan n (Hscan : shrinks scan n) :
  forall fuel pairs s, (length s < fuel)%nat -> (length s < n)%nat ->
  shrinks_at (JSONObject_loop scan fuel pairs s) s.
Proof.
  induction fuel as [|fuel IH]; intros pairs s Hf Hn; [lia|].
  cbn [JSONObject_loop]. destruct (skip_whitespace s) as [|c t] eqn:E;
    [apply shrinks_at_Invalid|].
  apply skip_whitespace_cons in E.
  destruct (c =? 125); [now apply shrinks_at_Scanned|].
  destruct (c =? 44); [|apply shrinks_at_Invalid].
  destruct (skip_whitespace t) as [|q t1] eqn:E1; [apply shrinks_at_Invalid|].
  apply skip_whitespace_cons in E1.
  destruct (q =? QUOTE); [|apply shrinks_at_Invalid].
  destruct (JSONObject_pair_shrinks scan n Hscan t1) as [H1 H2]; [lia|].
  destruct (JSONObject_pair scan t1) as [kv rest| |] eqn:Es;
    [|apply shrinks_at_Invalid|contradiction].
  specialize (H2 _ _ eq_refl).
  apply (shrinks_at_le _ rest); [|lia]. apply IH; lia.
Qed.

Lemma JSONObject_shrinks scan n (Hscan : shrinks scan n) fuel s :
  (length s < fuel)%nat -> (length s < n)%nat ->
  shrinks_at (JSONObject scan fuel s) (123 :: s).
Proof.
  intros Hf Hn. unfold JSONObject.
  destruct (skip_whitespace s) as [|c t] eqn:E; [apply shrinks_at_Invalid|].
  apply skip_whitespace_cons in E.
  destruct (c =? 125).
  { apply shrinks_at_Scanned. cbn [length]. lia. }
  destruct (c =? QUOTE); [|apply shrinks_at_Invalid].
  destruct (JSONObject_pair_shrinks scan n Hscan t) as [H1 H2]; [lia|].
  destruct (JSONObject_pair scan t) as [kv rest| |] eqn:Es;
    [|apply shrinks_at_Invalid|contradiction].
  specialize (H2 _ _ eq_refl).
  apply (shrinks_at_le _ rest); [|cbn [length]; lia].
  apply (JSONObject_loop_shrinks _ _ Hscan); lia.
Qed.

Lemma startswith_shrinks (v : pyval) word s rest :
  word <> [] -> startswith word s = Some rest -> shrinks_at (Scanned v rest) s.
Proof.
  intros Hw E. apply startswith_length in E. apply shrinks_at_Scanned.
  destruct word; [contradiction|]. cbn [length] in E. lia.
Qed.

(** The recursion bound of [json_loads] is never reached, and a scanned
    value consumes text. *)
Lemma scan_once_fuel fuel : shrinks (scan_once fuel) fuel.
Proof.
  induction fuel as [|fuel IH]; intros s Hs; [lia|].
  destruct s as [|c t]; [apply shrinks_at_Invalid|]. cbn [length] in Hs.
  cbn [scan_once].
  destruct (c =? QUOTE).
  { destruct (scanstring t) as [[v rest]|] eqn:E; [|apply shrinks_at_Invalid].
    apply scanstring_length in E. apply shrinks_at_Scanned. cbn [length]. lia. }
  destruct (Z.eqb_spec c 123) as [->|].
  { apply (JSONObject_shrinks _ _ IH); lia. }
  destruct (Z.eqb_spec c 91) as [->|].
  { apply (JSONArray_shrinks _ _ IH); lia. }
  destruct (startswith (lit "null") (c :: t)) eqn:E1;
    [eapply startswith_shrinks; [|exact E1]; discriminate|].
  destruct (startswith (lit "true") (c :: t)) eqn:E2;
    [eapply startswith_shrinks; [|exact E2]; discriminate|].
  destruct (startswith (lit "false") (c :: t)) eqn:E3;
    [eapply startswith_shrinks; [|exact E3]; discriminate|].
  destruct (match_number (c :: t)) as [[[[i f] e] rest]|] eqn:En.
  { apply match_number_length in En.
    destruct (f ++ e); now apply shrinks_at_Scanned. }
  destruct (startswith (lit "NaN") (c :: t)) eqn:E4;
    [eapply startswith_shrinks; [|exact E4]; discriminate|].
  destruct (startswith (lit "Infinity") (c :: t)) eqn:E5;
    [eapply startswith_shrinks; [|exact E5]; discriminate|].
  destruct (startswith (lit "-Infinity") (c :: t)) eqn:E6;
    [eapply startswith_shrinks; [|exact E6]; discriminate|].
  apply shrinks_at_Invalid.
Qed.

(** [json_loads] fails only on text that is not a JSON document, never for
    want of fuel. *)
Lemma json_loads_not_exhausted s :
  scan_once (S (length s)) (skip_whitespace s) <> Exhausted.
Proof.
  apply scan_once_fuel. pose proof (skip_whitespace_length s). lia.
Qed.

(** ** Shapes of mappings *)

Lemma dict_get_None (d : list (str * pyval)) k :
  k ∉ List.map fst d -> dict_get d k = None.
Proof.
  induction d as [|[k' v] d IH]; [reflexivity|]. cbn [List.map fst dict_get].
  intros Hk. rewrite not_elem_of_cons in Hk. destruct Hk as [Hne Hk].
  rewrite bool_decide_eq_false_2 by congruence. auto.
Qed.

Lemma dict_get_Some (d : list (str * pyval)) k :
  k ∈ List.map fst d -> exists v, dict_get d k = Some v.
Proof.
  induction d as [|[k' v] d IH]; cbn [List.map fst dict_get].
  - intros H. inversion H.
  - intros H. destruct (bool_decide (k' = k)) eqn:E; [eauto|].
    apply bool_decide_eq_false in E. apply elem_of_cons in H as [->|H]; [done|auto].
Qed.

Lemma Record_kwargs_raises item e : Record_kwargs item = Raise e -> e = TypeError.
Proof.
  unfold Record_kwargs. destruct item; try (now intros [= <-]).
  destruct (forallb _ d); [|now intros [= <-]].
  repeat (destruct (dict_get d _); [|now intros [= <-]]). discriminate.
Qed.

Lemma comprehension_raises items item :
  item ∈ items -> Record_kwargs item = Raise TypeError ->
  comprehension Record_kwargs items = Raise TypeError.
Proof.
  induction items as [|x items IH]; intros Hin Hr; [inversion Hin|].
  cbn [comprehension]. destruct (Record_kwargs x) eqn:Ex; cbn [bind].
  - apply elem_of_cons in Hin as [->|Hin]; [congruence|].
    now rewrite IH.
  - now rewrite (Record_kwargs_raises _ _ Ex).
Qed.

Lemma Record_kwargs_mismatch d :
  (exists f, f ∈ FIELDS /\ f ∉ List.map fst d)
  \/ (exists k, k ∈ List.map fst d /\ k ∉ FIELDS) ->
  Record_kwargs (PDict d) = Raise TypeError.
Proof.
  intros [(f & Hf & Hd)|(k & Hk & Hf)]; unfold Record_kwargs.
  - destruct (forallb _ d); [|reflexivity].
    pose proof (dict_get_None d f Hd) as Hn.
    unfold FIELDS in Hf. rewrite !elem_of_cons in Hf. rewrite elem_of_nil in Hf.
    destruct Hf as [->|[->|[->|[->|[->|[->|[]]]]]]]; rewrite Hn;
      repeat (destruct (dict_get d _)); reflexivity.
  - replace (forallb _ d) with false; [reflexivity|]. symmetry.
    apply not_true_is_false. intros Hall. rewrite forallb_forall in Hall.
    apply list_elem_of_In, in_map_iff in Hk as ([k' v] & <- & Hin).
    apply Hall in Hin. cbn in Hin. apply bool_decide_eq_true in Hin. done.
Qed.

Lemma Record_kwargs_keys d :
  has_record_keys d ->
  exists r, Record_kwargs (PDict d) = Ok r /\ holds_fields d r.
Proof.
  intros Hk. unfold Record_kwargs.
  replace (forallb _ d) with true.
  2: { symmetry. apply forallb_forall. intros [k v] Hin. cbn [fst].
       apply bool_decide_eq_true, Hk, list_elem_of_In, in_map_iff.
       exists (k, v). auto. }
  assert (G : forall f, f ∈ FIELDS -> exists v, dict_get d f = Some v).
  { intros f Hf. apply dict_get_Some, Hk, Hf. }
  unfold FIELDS in G.
  destruct (G (lit "name")) as [n En]; [now apply (bool_decide_unpack _)|].
  destruct (G (lit "age")) as [a Ea]; [now apply (bool_decide_unpack _)|].
  destruct (G (lit "email")) as [e Ee]; [now apply (bool_decide_unpack _)|].
  destruct (G (lit "phone")) as [p Ep]; [now apply (bool_decide_unpack _)|].
  destruct (G (lit "notes")) as [o Eo]; [now apply (bool_decide_unpack _)|].
  destruct (G (lit "timestamp")) as [t Et]; [now apply (bool_decide_unpack _)|].
  rewrite En, Ea, Ee, Ep, Eo, Et. eexists. split; [reflexivity|].
  unfold holds_fields. cbn [name age email phone notes timestamp].
  repeat split; assumption.
Qed.

Lemma load_text path fs text :
  read_text fs path = Ok text ->
  _load path fs
  = match json_loads text with
    | Raise JSONDecodeError => Ok []
    | Raise e => Raise e
    | Ok data => bind (iter data) (comprehension Record_kwargs)
    end.
Proof.
  intros Hr. unfold _load, exists_. unfold read_text in Hr.
  destruct (fs !! path) eqn:E; [|discriminate]. cbn [negb].
  unfold read_text. rewrite E, Hr. reflexivity.
Qed.



Lemma write_text_OSError fs path text e fs' :
  write_text fs path text = (Raise e, fs') -> is_OSError e = true -> fs' = fs.
Proof.
  unfold write_text.
  destruct (fs !! path) as [[|r [] d]|]; destruct (utf8_encode text);
    intros [= <- <-]; try discriminate; reflexivity.
Qed.

(** ** The document [_save] writes *)

Lemma record_text_mapping r : record_text 1 r = mapping_text r.
Proof.
  unfold record_text, asdict. rewrite iterencode_dict, !separated_cons.
  unfold separated, pair_text, mapping_text, member_text.
  cbn [fst snd flat_map]. rewrite app_nil_r.
  repeat (progress (rewrite <- ?app_assoc; cbn [app])). reflexivity.
Qed.

Lemma mappings_text_records r rs :
  mappings_text (r :: rs)
  = newline_indent 1 ++ record_text 1 r ++ separated 1 (record_text 1) rs.
Proof.
  revert r. induction rs as [|r' rs IH]; intros r.
  - cbn [mappings_text separated flat_map].
    now rewrite app_nil_r, record_text_mapping.
  - change (mappings_text (r :: r' :: rs))
      with ([10] ++ lit "  " ++ mapping_text r ++ lit "," ++ mappings_text (r' :: rs)).
    rewrite IH, separated_cons, !record_text_mapping. reflexivity.
Qed.

Lemma json_dumps_document rs :
  json_dumps (PList (List.map asdict rs)) = document_text rs.
Proof.
  destruct rs as [|r rs]; [reflexivity|]. unfold json_dumps, document_text.
  rewrite iterencode_records, mappings_text_records, <- !app_assoc. reflexivity.
Qed.

Lemma escape_char_native c : written_natively c = true -> escape_char c = [c].
Proof.
  unfold written_natively, escape_char, QUOTE, BACKSLASH. intros H.
  apply andb_prop in H as [H H92]. apply andb_prop in H as [H32 H34].
  apply negb_true_iff in H92, H34. apply Z.leb_le in H32. rewrite H34, H92.
  decide_comparisons; reflexivity.
Qed.

Lemma encode_basestring_native s :
  forallb written_natively s = true -> encode_basestring s = QUOTE :: s ++ [QUOTE].
Proof.
  intros H. unfold encode_basestring. do 2 f_equal.
  induction s as [|c s IH]; [reflexivity|]. cbn [forallb] in H.
  apply andb_prop in H as [Hc Hs]. cbn [flat_map].
  now rewrite (escape_char_native _ Hc), IH.
Qed.

(** * The properties of the specification *)

(** C1. Round-trip persistence: after any sequence of [add_record] calls
    with arguments of the declared types, each of which returned, on a
    collector whose records conform to the data model, a fresh collector
    constructed on the same storage path has the very records of the first
    one, in the same order, and the timestamp of each is an ISO-8601
    string. *)
Theorem roundtrip_persistence calls : forall path fs self outcomes self' fs',
  __init__ path fs = Ok self ->
  forallb record_conforms (records self) = true ->
  forallb declared_types calls = true ->
  add_records self calls fs = (outcomes, self', fs') ->
  forallb is_ok outcomes = true ->
  __init__ path fs' = Ok self'
  /\ forallb record_conforms (records self') = true.
Proof.
  induction calls as [|c calls IH]; intros path fs self outcomes self' fs' Hi Hc Ht.
  - cbn. intros [= <- <- <-] _. auto.
  - cbn [add_records forallb] in *. rewrite add_record_unfold. cbv zeta.
    apply andb_prop in Ht as [Ht1 Ht2].
    set (self1 := {| storage_path := storage_path self;
                     records := records self ++ [new_record c] |}).
    destruct (add_records self1 calls _) as [[os s2] f2] eqn:E.
    intros [= <- <- <-]. cbn [forallb]. intros Hok.
    apply andb_prop in Hok as [Hok1 Hok2].
    assert (Hc1 : forallb record_conforms (records self1) = true).
    { cbn [records self1]. rewrite forallb_app, Hc. cbn.
      now rewrite new_record_conforms. }
    destruct (_save self1 fs) as [[[]|e] fs1] eqn:Es; [|discriminate].
    cbn [snd] in E. apply (IH path fs1 self1 os s2 f2); try assumption.
    pose proof (init_storage_path _ _ _ Hi) as Hp.
    replace path with (storage_path self1) by exact Hp.
    apply (save_then_load self1 fs fs1); [| |exact Es].
    + cbn [storage_path self1]. rewrite Hp. eapply init_ok_readable, Hi.
    + rewrite forallb_forall in Hc1. apply forallb_forall. intros r Hr.
      apply record_conforms_flat, Hc1, Hr.
Qed.

(** C2. Shape mismatch: when the storage file holds a JSON array one of
    whose mappings lacks a field of [Record] or has a key that is not one,
    [_load] raises [TypeError], and so does the constructor: no empty or
    partial list of records is returned. *)
Theorem shape_mismatch_raises path fs text items d :
  read_text fs path = Ok text ->
  json_loads text = Ok (PList items) ->
  PDict d ∈ items ->
  (exists f, f ∈ FIELDS /\ f ∉ List.map fst d)
  \/ (exists k, k ∈ List.map fst d /\ k ∉ FIELDS) ->
  _load path fs = Raise TypeError /\ __init__ path fs = Raise TypeError.
Proof.
  intros Hr Hj Hin Hbad.
  assert (L : _load path fs = Raise TypeError).
  { unfold _load, exists_. unfold read_text in Hr.
    destruct (fs !! path) eqn:E; [|discriminate]. cbn [negb].
    unfold read_text. rewrite E, Hr. cbn [bind]. rewrite Hj. cbn [iter bind].
    eapply comprehension_raises; [exact Hin|]. now apply Record_kwargs_mismatch. }
  split; [exact L|]. unfold __init__. now rewrite L.
Qed.




(** C6. Append-only growth: after [N] calls of [add_record] on an empty
    collector, each of which returned, there are [N] records, the [i]-th
    has the name, age, email, phone and notes of the [i]-th call, and the
    [i]-th call returned that record. *)
Theorem append_only_growth path calls fs outcomes self' fs' :
  add_records {| storage_path := path; records := [] |} calls fs
  = (outcomes, self', fs') ->
  forallb is_ok outcomes = true ->
  length (records self') = length calls
  /\ forall i c, calls !! i = Some c ->
       exists r, records self' !! i = Some r
         /\ name r = arg_name c /\ age r = arg_age c /\ email r = arg_email c
         /\ phone r = arg_phone c /\ notes r = arg_notes c
         /\ outcomes !! i = Some (Ok r).
Proof.
  intros E Hok.
  destruct (add_records_collector _ _ _ _ _ _ E) as (_ & Hr & _).
  pose proof (add_records_outcomes _ _ _ _ _ _ E Hok) as Ho.
  cbn [records app] in Hr. rewrite Hr, Ho. split; [apply length_map|].
  intros i c Hi. exists (new_record c). rewrite !list_lookup_fmap, Hi.
  cbn. repeat split; reflexivity.
Qed.

(** C7. Save format and frame: a [_save] that returns has put at the
    storage path, in place of whatever was there, the UTF-8 encoding of
    [document_text]: an array with one mapping per record, the six keys in
    declaration order; every other path is as before; a string is written
    between quotes character by character, and a character outside ASCII as
    it is; and when the records hold strings and integers, the document
    reads back as the array of their mappings. *)
Theorem save_writes_document self fs fs' :
  _save self fs = (Ok tt, fs') ->
  (exists readable bytes,
     fs' = <[storage_path self := RegularFile readable true bytes]> fs
     /\ utf8_encode (document_text (records self)) = Some bytes)
  /\ (forall p, p <> storage_path self -> fs' !! p = fs !! p)
  /\ (forall s level,
        iterencode (PStr s) level = QUOTE :: flat_map escape_char s ++ [QUOTE])
  /\ (forall c, 128 <= c -> escape_char c = [c])
  /\ (forallb flat_record (records self) = true ->
      json_loads (document_text (records self))
      = Ok (PList (List.map asdict (records self)))).
Proof.
  intros Hs. unfold _save in Hs. rewrite json_dumps_document in Hs.
  unfold write_text in Hs.
  assert (W : exists readable bytes,
     fs' = <[storage_path self := RegularFile readable true bytes]> fs
     /\ utf8_encode (document_text (records self)) = Some bytes).
  { destruct (fs !! storage_path self) as [[|r [] d]|]; try discriminate;
      destruct (utf8_encode _) as [bytes|]; try discriminate;
      injection Hs as <-; eauto. }
  split; [exact W|]. split; [|split; [|split]].
  - destruct W as (r & bytes & -> & _). intros p Hp. now rewrite lookup_insert_ne.
  - reflexivity.
  - intros c Hc. apply escape_char_native.
    unfold written_natively, QUOTE, BACKSLASH. decide_comparisons; reflexivity.
  - intros Hflat. rewrite <- json_dumps_document.
    now apply json_loads_dumps_records.
Qed.

(** C8. No roll-back: when the [_save] inside [add_record] raises an
    [OSError], [add_record] raises it too, the collector has the new record
    all the same and the file system is as before; so if storage and
    collector agreed before the call, they no longer do. *)
Theorem save_failure_keeps_record self c fs err :
  let self' := {| storage_path := storage_path self;
                  records := records self ++ [new_record c] |} in
  fst (_save self' fs) = Raise err -> is_OSError err = true ->
  add_record self (at_time c) (arg_name c) (arg_age c) (arg_email c)
    (arg_phone c) (arg_notes c) fs = (Raise err, self', fs)
  /\ (__init__ (storage_path self) fs = Ok self ->
      __init__ (storage_path self) fs <> Ok self').
Proof.
  cbv zeta. intros Hs He. rewrite add_record_unfold. cbv zeta. split.
  - destruct (_save _ fs) as [o fs'] eqn:E. cbn [fst snd] in *. subst o.
    unfold _save in E. now rewrite (write_text_OSError _ _ _ _ _ E He).
  - intros -> [= H]. apply (f_equal records) in H. cbn [records] in H.
    apply (f_equal (@length _)) in H. rewrite length_app in H. cbn in H. lia.
Qed.

(** C9. No validation of value types: when the storage file holds a JSON
    array of mappings each with exactly the six keys, [_load] returns one
    record per mapping, its fields the values of the mapping whatever their
    types. *)
Theorem load_accepts_any_values path fs text items :
  read_text fs path = Ok text ->
  json_loads text = Ok (PList items) ->
  Forall (fun item => exists d, item = PDict d /\ has_record_keys d) items ->
  exists rs, _load path fs = Ok rs
    /\ Forall2 (fun item r => exists d, item = PDict d /\ holds_fields d r)
         items rs.
Proof.
  intros Hr Hj Hall. rewrite (load_text _ _ _ Hr), Hj. cbn [iter bind].
  clear Hj. induction Hall as [|item items Hitem _ IH].
  - exists []. split; [reflexivity|constructor].
  - destruct Hitem as (d & -> & Hk). destruct IH as (rs & E & H2).
    destruct (Record_kwargs_keys d Hk) as (r & Er & Hf).
    exists (r :: rs). cbn [comprehension]. rewrite Er. cbn [bind].
    rewrite E. cbn [bind]. split; [reflexivity|]. constructor; eauto.
Qed.

(** C10, amended. When the storage file holds valid JSON that is not an
    array of mappings, [_load] raises [TypeError], except for the empty
    string and the empty mapping, on which it returns no records. *)
Theorem non_array_json_load path fs text data :
  read_text fs path = Ok text ->
  json_loads text = Ok data ->
  is_array_of_mappings data = false ->
  _load path fs = if iterates_nothing data then Ok [] else Raise TypeError.
Proof.
  intros Hr Hj Hn. rewrite (load_text _ _ _ Hr), Hj.
  destruct data as [| | | |s|items|d]; try reflexivity.
  - destruct s; reflexivity.
  - cbn [iterates_nothing iter bind]. cbn [is_array_of_mappings] in Hn.
    assert (exists item, item ∈ items /\ Record_kwargs item = Raise TypeError)
      as (item & Hin & Hi).
    { clear Hj. induction items as [|x items IH]; [discriminate|]. cbn [forallb] in Hn.
      destruct x; try (eexists; split; [left|reflexivity]).
      destruct (IH Hn) as (item & Hin & Hi). exists item. split; [now right|done]. }
    now apply (comprehension_raises _ _ Hin).
  - destruct d as [|[k v] d]; reflexivity.
Qed.

End Properties.

(** * Further properties of the collector *)

Section CollectorProperties.
Context {F : Floats}.

Lemma add_record_cases self now n a e p o fs outcome self' fs' :
  add_record self now n a e p o fs = (outcome, self', fs') ->
  readable_or_missing fs (storage_path self) ->
  let r := {| name := n; age := a; email := e; phone := p; notes := o;
              timestamp := PStr (isoformat now) |} in
  self' = {| storage_path := storage_path self;
             records := records self ++ [r] |}
  /\ (forall q, q <> storage_path self -> fs' !! q = fs !! q)
  /\ match outcome with
     | Ok r' =>
         r' = r /\ _save self' fs = (Ok tt, fs')
         /\ exists bytes,
              fs' !! storage_path self = Some (RegularFile true true bytes)
     | Raise err =>
         (err = PermissionError /\ fs' = fs
          /\ exists d, fs !! storage_path self = Some (RegularFile true false d))
         \/ (err = UnicodeEncodeError
             /\ fs' !! storage_path self = Some (RegularFile true true []))
     end.
Proof.
  cbv zeta. unfold add_record, readable_or_missing.
  set (r := {| name := n; timestamp := PStr (isoformat now) |}).
  set (grown := {| storage_path := storage_path self |}).
  destruct (_save grown fs) as [saved fs1] eqn:Es.
  intros [= <- <- <-] Hr. split; [reflexivity|].
  pose proof Es as Ew. unfold _save, write_text in Ew.
  change (storage_path grown) with (storage_path self) in *.
  destruct (fs !! storage_path self) as [[|[] [] d]|] eqn:El;
    try contradiction;
    try destruct (utf8_encode _) as [bytes|]; injection Ew as <- <-;
    (split; [intros q Hq; try reflexivity; now rewrite lookup_insert_ne by auto|]);
    cbn [bind]; rewrite ?lookup_insert_eq; eauto 10.
Qed.


Lemma init_truncated path fs w :
  fs !! path = Some (RegularFile true w []) ->
  __init__ path fs = Ok {| storage_path := path; records := [] |}.
Proof.
  intros H. unfold __init__, _load, exists_, read_text. rewrite H. reflexivity.
Qed.

Lemma write_text_OSError_again fs p text e fs' text' :
  write_text fs p text = (Raise e, fs') -> is_OSError e = true ->
  write_text fs p text' = (Raise e, fs).
Proof.
  unfold write_text.
  destruct (fs !! p) as [[|r [] d]|]; destruct (utf8_encode text);
    intros [= <- <-]; try discriminate; reflexivity.
Qed.

Lemma add_record_OSError self now n a e p o fs err self' fs' :
  add_record self now n a e p o fs = (Raise err, self', fs') ->
  is_OSError err = true ->
  fs' = fs /\ storage_path self' = storage_path self
  /\ forall text, write_text fs (storage_path self) text = (Raise err, fs).
Proof.
  unfold add_record, _save. cbn [storage_path records].
  destruct (write_text fs (storage_path self) _) as [[[]|err'] fs1] eqn:Ew;
    cbn [bind]; [discriminate|]. intros [= <- <- <-] He.
  split; [exact (write_text_OSError _ _ _ _ _ Ew He)|].
  split; [reflexivity|]. intros text.
  exact (write_text_OSError_again _ _ _ _ _ _ Ew He).
Qed.

Lemma add_records_OSError calls : forall self fs err outcomes self' fs',
  (forall text, write_text fs (storage_path self) text = (Raise err, fs)) ->
  add_records self calls fs = (outcomes, self', fs') ->
  outcomes = List.map (fun _ => Raise err) calls /\ fs' = fs.
Proof.
  induction calls as [|c calls IH]; intros self fs err outcomes self' fs' Hw.
  - cbn. now intros [= <- <- <-].
  - cbn [add_records]. rewrite add_record_unfold. cbv zeta.
    unfold _save at 1 2. cbn [storage_path records]. rewrite Hw. cbn [fst snd].
    destruct (add_records _ calls fs) as [[os s2] f2] eqn:E.
    intros [= <- <- <-]. destruct (IH {| storage_path := storage_path self |} _ err _ _ _ Hw E)
      as [-> ->].
    split; reflexivity.
Qed.


(** X2. The storage file is written from memory alone: when [add_record]
    returns on a collector of strings and integers, with arguments of the
    declared types, a fresh collector on the storage path loads the records
    of the collector, whatever the file held before and whether or not
    earlier saves had failed. *)
Theorem add_record_writes_memory self c fs r self' fs' :
  add_record self (at_time c) (arg_name c) (arg_age c) (arg_email c)
    (arg_phone c) (arg_notes c) fs = (Ok r, self', fs') ->
  readable_or_missing fs (storage_path self) ->
  forallb flat_record (records self) = true ->
  declared_types c = true ->
  r = new_record c
  /\ __init__ (storage_path self) fs' = Ok self'
  /\ records self' = records self ++ [r].
Proof.
  intros Ha Hr Hflat Ht.
  destruct (add_record_cases _ _ _ _ _ _ _ _ _ _ _ Ha Hr)
    as (Hs & _ & -> & Hsave & _).
  fold (new_record c) in *. split; [reflexivity|].
  split; [|now rewrite Hs].
  replace (storage_path self) with (storage_path self') in * by now rewrite Hs.
  apply (save_then_load self' fs fs' Hr); [|assumption].
  rewrite Hs. cbn [records]. rewrite forallb_app, Hflat. cbn [forallb].
  now rewrite (record_conforms_flat _ (new_record_conforms _ Ht)).
Qed.

(** X3. An [add_record] that fails with [UnicodeEncodeError] (a field
    holds a lone surrogate) has already truncated the storage file: the
    collector keeps its records and the new one, and a fresh collector on
    the storage path loads no record. *)
Theorem add_record_unencodable_empties_storage self now n a e p o fs self' fs' :
  add_record self now n a e p o fs = (Raise UnicodeEncodeError, self', fs') ->
  readable_or_missing fs (storage_path self) ->
  records self'
  = records self
    ++ [{| name := n; age := a; email := e; phone := p; notes := o;
           timestamp := PStr (isoformat now) |}]
  /\ __init__ (storage_path self) fs'
     = Ok {| storage_path := storage_path self; records := [] |}.
Proof.
  intros H Hr.
  destruct (add_record_cases _ _ _ _ _ _ _ _ _ _ _ H Hr) as (-> & _ & Ho).
  split; [reflexivity|].
  destruct Ho as [(? & _)|(_ & Hfile)]; [discriminate|].
  exact (init_truncated _ _ _ Hfile).
Qed.

(** X4. A save that failed with an [OSError] is not made good by later
    calls: as long as nothing else changes the file system, every later
    [add_record] on the collector raises the same error and leaves the file
    system as it was, while the collector keeps growing. *)
Theorem failed_save_fails_again self now n a e p o fs err self1 fs1
  calls outcomes self2 fs2 :
  add_record self now n a e p o fs = (Raise err, self1, fs1) ->
  is_OSError err = true ->
  add_records self1 calls fs1 = (outcomes, self2, fs2) ->
  outcomes = List.map (fun _ => Raise err) calls
  /\ fs2 = fs
  /\ records self2 = records self1 ++ List.map new_record calls.
Proof.
  intros Ha He Hs.
  destruct (add_record_OSError _ _ _ _ _ _ _ _ _ _ _ Ha He) as (-> & Hp & Hw).
  rewrite <- Hp in Hw.
  destruct (add_records_OSError _ _ _ _ _ _ _ Hw Hs) as [-> ->].
  destruct (add_records_collector _ _ _ _ _ _ Hs) as (_ & Hr & _).
  auto.
Qed.

End CollectorProperties.

(** * Properties of the console program *)

(** ** Stripping *)

Lemma lstrip_head s : isspace (hd 0 (lstrip s)) = false.
Proof.
  induction s as [|c s IH]; [reflexivity|]. cbn [lstrip].
  destruct (isspace c) eqn:E; [exact IH|exact E].
Qed.

Lemma lstrip_nonspace c t : isspace c = false -> lstrip (c :: t) = c :: t.
Proof. intros E. cbn [lstrip]. now rewrite E. Qed.

Lemma lstrip_app_nonspace c l :
  isspace c = false -> lstrip (l ++ [c]) = lstrip l ++ [c].
Proof.
  intros E. induction l as [|a l IH]; cbn [app lstrip].
  - now rewrite E.
  - destruct (isspace a); [exact IH|reflexivity].
Qed.

Lemma rstrip_cons c t : isspace c = false -> rstrip (c :: t) = c :: rstrip t.
Proof.
  intros E. unfold rstrip. cbn [rev].
  rewrite (lstrip_app_nonspace _ _ E), rev_app_distr. reflexivity.
Qed.

Lemma rstrip_last s : isspace (List.last (rstrip s) 0) = false.
Proof.
  unfold rstrip. pose proof (lstrip_head (rev s)) as H.
  destruct (lstrip (rev s)) as [|c t]; [reflexivity|].
  cbn [rev hd] in *. now rewrite last_last.
Qed.

Lemma strip_trimmed s : trimmed (strip s) = true.
Proof.
  unfold trimmed, strip. rewrite rstrip_last.
  pose proof (lstrip_head s) as H.
  destruct (lstrip s) as [|c t]; [reflexivity|]. cbn [hd] in H.
  rewrite (rstrip_cons _ _ H). cbn [hd]. now rewrite H.
Qed.

Lemma trimmed_strip s : trimmed s = true -> strip s = s.
Proof.
  unfold trimmed, strip. intros H. apply andb_prop in H as [H1 H2].
  apply negb_true_iff in H1, H2.
  destruct s as [|c t]; [reflexivity|]. cbn [hd] in H1.
  rewrite (lstrip_nonspace _ _ H1). unfold rstrip.
  destruct (rev (c :: t)) as [|a l] eqn:E.
  - apply (f_equal (@rev Z)) in E. rewrite rev_involutive in E. discriminate.
  - assert (Ha : c :: t = rev l ++ [a]).
    { rewrite <- (rev_involutive (c :: t)), E. reflexivity. }
    rewrite Ha, last_last in H2. rewrite (lstrip_nonspace _ _ H2). exact (eq_sym Ha).
Qed.

Lemma lstrip_nil s : lstrip s = [] <-> forallb isspace s = true.
Proof.
  induction s as [|c s IH]; cbn [lstrip forallb]; [tauto|].
  destruct (isspace c) eqn:E; cbn [andb]; [exact IH|]. split; discriminate.
Qed.

Lemma strip_nil s : strip s = [] <-> forallb isspace s = true.
Proof.
  rewrite <- lstrip_nil. unfold strip. pose proof (lstrip_head s) as H.
  destruct (lstrip s) as [|c t]; [now split|]. cbn [hd] in H.
  rewrite (rstrip_cons _ _ H). split; discriminate.
Qed.

Section ConsoleProperties.
Context {F : Floats} {B : Builtins}.

(** ** One call of [_prompt] *)

(** The body of the loop, in terms of [input] and [print]. *)
Lemma _prompt_input {A} prompt (cast : str -> option A) allow_empty io :
  _prompt prompt cast allow_empty io
  = match input prompt io with
    | (Raised e, io') => (Raised e, io')
    | (Returned line, io') =>
        let value := strip line in
        if bool_decide (value = []) && negb allow_empty then
          _prompt prompt cast allow_empty (print INPUT_REQUIRED io')
        else if bool_decide (value = []) && allow_empty then
          match cast value with
          | Some v => (Returned v, io')
          | None => (Raised ValueError, io')
          end
        else
          match cast value with
          | Some v => (Returned v, io')
          | None => _prompt prompt cast allow_empty (print INVALID_FORMAT io')
          end
    end.
Proof.
  unfold _prompt, input. destruct io as [[|line rest] out]; reflexivity.
Qed.

Lemma _prompt_loop_rejected {A} prompt (cast : str -> option A) allow_empty
  line rest out :
  rejected cast allow_empty line = true ->
  _prompt_loop prompt cast allow_empty (line :: rest) out
  = _prompt_loop prompt cast allow_empty rest
      (out ++ [Prompted prompt; Printed (complaint line)]).
Proof.
  unfold rejected, complaint. cbn [_prompt_loop]. cbv zeta.
  unfold print, show. cbn [stdout stdin].
  replace (out ++ [Prompted prompt; Printed (match strip line with
                                              | [] => INPUT_REQUIRED
                                              | _ :: _ => INVALID_FORMAT
                                              end)])
    with ((out ++ [Prompted prompt])
          ++ [Printed (match strip line with
                       | [] => INPUT_REQUIRED
                       | _ :: _ => INVALID_FORMAT
                       end)])
    by now rewrite <- app_assoc.
  destruct (strip line) as [|c v] eqn:E.
  - intros ->%negb_true_iff. reflexivity.
  - rewrite bool_decide_eq_false_2 by discriminate. cbn [andb].
    destruct (cast (c :: v)); [discriminate|reflexivity].
Qed.

Lemma _prompt_loop_accepted {A} prompt (cast : str -> option A) allow_empty
  line rest out :
  rejected cast allow_empty line = false ->
  _prompt_loop prompt cast allow_empty (line :: rest) out
  = (match cast (strip line) with
     | Some v => Returned v
     | None => Raised ValueError
     end, {| stdin := rest; stdout := out ++ [Prompted prompt] |}).
Proof.
  unfold rejected. cbn [_prompt_loop]. cbv zeta.
  destruct (strip line) as [|c v] eqn:E.
  - intros ->%negb_false_iff. cbn. now destruct (cast []).
  - rewrite bool_decide_eq_false_2 by discriminate. cbn [andb].
    destruct (cast (c :: v)); [reflexivity|discriminate].
Qed.

Lemma _prompt_loop_skips {A} prompt (cast : str -> option A) allow_empty
  skipped : forall lines out,
  forallb (rejected cast allow_empty) skipped = true ->
  _prompt_loop prompt cast allow_empty (skipped ++ lines) out
  = _prompt_loop prompt cast allow_empty lines
      (out ++ asked_again prompt skipped).
Proof.
  induction skipped as [|l skipped IH]; intros lines out H.
  - cbn. now rewrite app_nil_r.
  - cbn [forallb] in H. apply andb_prop in H as [H1 H2]. cbn [app].
    rewrite (_prompt_loop_rejected _ _ _ _ _ _ H1), (IH _ _ H2).
    unfold asked_again. cbn [flat_map]. now rewrite <- app_assoc.
Qed.

(** The lines a call of [_prompt] has read: those it rejected, then the one
    that ended the call, if the input did not end before. *)
Lemma _prompt_loop_reads {A} prompt (cast : str -> option A) allow_empty
  lines : forall out,
  (forallb (rejected cast allow_empty) lines = true
   /\ _prompt_loop prompt cast allow_empty lines out
      = (Raised EOFError,
         {| stdin := [];
            stdout := out ++ asked_again prompt lines ++ [Prompted prompt] |}))
  \/ exists skipped line rest,
       lines = skipped ++ line :: rest
       /\ forallb (rejected cast allow_empty) skipped = true
       /\ rejected cast allow_empty line = false
       /\ _prompt_loop prompt cast allow_empty lines out
          = (match cast (strip line) with
             | Some v => Returned v
             | None => Raised ValueError
             end,
             {| stdin := rest;
                stdout := out ++ asked_again prompt skipped
                          ++ [Prompted prompt] |}).
Proof.
  induction lines as [|l lines IH]; intros out.
  - left. split; reflexivity.
  - destruct (rejected cast allow_empty l) eqn:E.
    + rewrite (_prompt_loop_rejected _ _ _ _ _ _ E).
      destruct (IH (out ++ [Prompted prompt; Printed (complaint l)]))
        as [[H1 H2]|(skipped & line & rest & H1 & H2 & H3 & H4)].
      * left. cbn [forallb]. rewrite E, H1, H2. split; [reflexivity|].
        unfold asked_again. cbn [flat_map]. now rewrite <- !app_assoc.
      * right. exists (l :: skipped), line, rest. cbn [forallb app].
        rewrite E, H2, H4, H1. repeat split; try assumption.
        unfold asked_again. cbn [flat_map]. now rewrite <- !app_assoc.
    + right. exists [], l, lines. cbn [forallb app].
      rewrite (_prompt_loop_accepted _ _ _ _ _ _ E).
      repeat split; try assumption. 
Qed.

Lemma rejected_false {A} (cast : str -> option A) allow_empty line :
  rejected cast allow_empty line = false ->
  (cast (strip line) = None -> allow_empty = true /\ strip line = [])
  /\ (allow_empty = false -> strip line <> []).
Proof.
  unfold rejected. destruct (strip line) as [|c v].
  - intros ->%negb_false_iff. split; [tauto|discriminate].
  - destruct (cast (c :: v)); [|discriminate]. intros _.
    split; [discriminate|]. intros _. discriminate.
Qed.

Lemma printed_records_app (a b : list event) :
  printed_records (a ++ b) = printed_records a ++ printed_records b.
Proof. apply flat_map_app. Qed.

Lemma printed_records_asked_again prompt skipped :
  printed_records (asked_again prompt skipped) = [].
Proof. induction skipped as [|l s IH]; [reflexivity|exact IH]. Qed.

(** What a round of [run_cli] needs to know of a call of [_prompt]. *)
Lemma _prompt_effect {A} prompt (cast : str -> option A) allow_empty io r io' :
  _prompt prompt cast allow_empty io = (r, io') ->
  printed_records (stdout io') = printed_records (stdout io)
  /\ match r with
     | Returned v =>
         (length (stdin io') < length (stdin io))%nat
         /\ exists line, cast (strip line) = Some v
                         /\ (allow_empty = false -> strip line <> [])
     | Raised EOFError => stdin io' = []
     | Raised ValueError => allow_empty = true /\ cast [] = None
     | Raised (CollectorError _) => False
     end.
Proof.
  unfold _prompt.
  destruct (_prompt_loop_reads prompt cast allow_empty (stdin io) (stdout io))
    as [[_ H]|(skipped & line & rest & H1 & H2 & H3 & H)];
    rewrite H; intros [= <- <-]; cbn [stdin stdout];
    rewrite !printed_records_app, printed_records_asked_again;
    cbn [printed_records flat_map app]; rewrite app_nil_r;
    (split; [reflexivity|]); [reflexivity|].
  destruct (rejected_false _ _ _ H3) as [Hn He].
  destruct (cast (strip line)) as [v|] eqn:Ec.
  - split; [rewrite H1, length_app; cbn [length]; lia|].
    exists line. split; assumption.
  - destruct (Hn eq_refl) as [-> Hs]. now rewrite <- Hs.
Qed.

Lemma _prompt_str prompt allow_empty io v io' :
  _prompt prompt py_str allow_empty io = (Returned v, io') ->
  trimmed v = true /\ (allow_empty = false -> nonblank v = true).
Proof.
  intros H. destruct (_prompt_effect _ _ _ _ _ _ H) as (_ & _ & line & [= <-] & Hn).
  pose proof (strip_trimmed line) as Ht. split; [exact Ht|].
  intros Ha. unfold nonblank. rewrite Ht, bool_decide_eq_false_2 by auto.
  reflexivity.
Qed.

Lemma typed_in_round now n a e p o :
  nonblank n = true -> nonblank e = true -> nonblank p = true ->
  trimmed o = true ->
  typed_in {| name := PStr n; age := PInt a; email := PStr e;
              phone := PStr p; notes := PStr o;
              timestamp := PStr (isoformat now) |} = true.
Proof.
  intros Hn He Hp Ho. unfold typed_in.
  cbn [name age email phone notes timestamp].
  now rewrite Hn, He, Hp, Ho, is_iso8601_isoformat.
Qed.

Lemma typed_in_conforms r : typed_in r = true -> record_conforms r = true.
Proof.
  unfold typed_in, record_conforms.
  destruct (name r); try discriminate. destruct (age r); try discriminate.
  destruct (email r); try discriminate. destruct (phone r); try discriminate.
  destruct (notes r); try discriminate.
  destruct (timestamp r); try discriminate.
  intros H. repeat (apply andb_prop in H as [H ?]). assumption.
Qed.

(** ** The loop of [run_cli] *)

Lemma typed_in_flat new :
  forallb typed_in new = true -> forallb flat_record new = true.
Proof.
  rewrite !forallb_forall. intros H r Hr.
  apply record_conforms_flat, typed_in_conforms, H, Hr.
Qed.

(** A call of [_prompt] in [run_cli] that raises: the input has ended. *)
Lemma _prompt_raised {A} prompt (cast : str -> option A) allow_empty io e io' :
  _prompt prompt cast allow_empty io = (Raised e, io') ->
  allow_empty = false \/ cast [] <> None ->
  e = EOFError /\ stdin io' = []
  /\ printed_records (stdout io') = printed_records (stdout io).
Proof.
  intros H Hc. destruct (_prompt_effect _ _ _ _ _ _ H) as [Hp He].
  destruct e as [| |e]; [auto| |contradiction].
  destruct He as [-> Hn]. destruct Hc; [discriminate|contradiction].
Qed.

Lemma _prompt_returned {A} prompt (cast : str -> option A) allow_empty io v io' :
  _prompt prompt cast allow_empty io = (Returned v, io') ->
  (length (stdin io') < length (stdin io))%nat
  /\ printed_records (stdout io') = printed_records (stdout io).
Proof.
  intros H. destruct (_prompt_effect _ _ _ _ _ _ H) as [Hp [Hl _]]. auto.
Qed.

Lemma printed_records_round (io : console) record path :
  printed_records
    (stdout (show (PrintedLocation path)
               (show (PrintedRecord record) (print SAVED io))))
  = printed_records (stdout io) ++ [record].
Proof.
  unfold print, show. cbn [stdout stdin]. rewrite !printed_records_app.
  cbn. now rewrite !app_nil_r.
Qed.

Lemma printed_records_heading (io : console) :
  printed_records (stdout (print HEADING io)) = printed_records (stdout io).
Proof.
  unfold print, show. cbn [stdout]. rewrite printed_records_app. cbn.
  now rewrite app_nil_r.
Qed.

Lemma collector_eq (a b : DataCollector) :
  storage_path a = storage_path b -> records a = records b -> a = b.
Proof. destruct a, b. cbn. now intros -> ->. Qed.

(** How the loop ends, from a collector whose storage path names nothing or
    a file that can be read. *)
Lemma run_cli_loop_ends fuel : forall collector clock io fs r collector' io' fs',
  run_cli_loop fuel collector clock io fs = Some (r, collector', io', fs') ->
  readable_or_missing fs (storage_path collector) ->
  exists new, loop_ends collector io fs (r, collector', io', fs') new.
Proof.
  induction fuel as [|fuel IH]; intros collector clock io fs r collector' io' fs';
    [discriminate|].
  cbn [run_cli_loop].
  assert (Hstr : @None str <> None -> False) by auto.
  (* a prompt that raises ends the program with nothing new *)
  assert (Hquit : forall e (io1 : console),
    e = EOFError /\ stdin io1 = []
    /\ printed_records (stdout io1) = printed_records (stdout io) ->
    Some (Raised e, collector, io1, fs) = Some (r, collector', io', fs') ->
    readable_or_missing fs (storage_path collector) ->
    exists new, loop_ends collector io fs (r, collector', io', fs') new).
  { intros e io1 (-> & Hin & Hp) [= <- <- <- <-] _. exists []. unfold loop_ends.
    rewrite !app_nil_r. repeat split; auto. }
  destruct (_prompt NAME_PROMPT py_str false io) as [[name|e] io1] eqn:E1;
    cbn [ask];
    [|apply Hquit, (_prompt_raised _ _ _ _ _ _ E1); now left].
  destruct (_prompt_returned _ _ _ _ _ _ E1) as [_ P1].
  destruct (_prompt_str _ _ _ _ _ E1) as [_ N1]. specialize (N1 eq_refl).
  destruct (_prompt AGE_PROMPT py_int false io1) as [[age|e] io2] eqn:E2;
    cbn [ask];
    [|apply Hquit; destruct (_prompt_raised _ _ _ _ _ _ E2) as (? & ? & ?);
      [now left|repeat split; congruence]].
  destruct (_prompt_returned _ _ _ _ _ _ E2) as [_ P2].
  destruct (_prompt EMAIL_PROMPT py_str false io2) as [[email|e] io3] eqn:E3;
    cbn [ask];
    [|apply Hquit; destruct (_prompt_raised _ _ _ _ _ _ E3) as (? & ? & ?);
      [now left|repeat split; congruence]].
  destruct (_prompt_returned _ _ _ _ _ _ E3) as [_ P3].
  destruct (_prompt_str _ _ _ _ _ E3) as [_ N3]. specialize (N3 eq_refl).
  destruct (_prompt PHONE_PROMPT py_str false io3) as [[phone|e] io4] eqn:E4;
    cbn [ask];
    [|apply Hquit; destruct (_prompt_raised _ _ _ _ _ _ E4) as (? & ? & ?);
      [now left|repeat split; congruence]].
  destruct (_prompt_returned _ _ _ _ _ _ E4) as [_ P4].
  destruct (_prompt_str _ _ _ _ _ E4) as [_ N4]. specialize (N4 eq_refl).
  destruct (_prompt NOTES_PROMPT py_str true io4) as [[notes|e] io5] eqn:E5;
    cbn [ask];
    [|apply Hquit; destruct (_prompt_raised _ _ _ _ _ _ E5) as (? & ? & ?);
      [right; discriminate|repeat split; congruence]].
  destruct (_prompt_returned _ _ _ _ _ _ E5) as [_ P5].
  destruct (_prompt_str _ _ _ _ _ E5) as [N5 _].
  clear Hquit.
  assert (P : printed_records (stdout io5) = printed_records (stdout io))
    by congruence.
  pose proof (typed_in_round (clock O) name age email phone notes N1 N3 N4 N5)
    as Ht.
  destruct (add_record collector (clock O) _ _ _ _ _ fs)
    as [[added c1] fs1] eqn:Ea.
  intros Hrun Hr.
  destruct (add_record_cases _ _ _ _ _ _ _ _ _ _ _ Ea Hr) as (Hc1 & Hframe & Ho).
  set (record := {| name := PStr name; timestamp := PStr (isoformat (clock O)) |})
    in *.
  assert (Hp1 : storage_path c1 = storage_path collector) by now rewrite Hc1.
  assert (Hr1 : records c1 = records collector ++ [record]) by now rewrite Hc1.
  destruct added as [record'|err].
  - destruct Ho as (-> & Hsave & bytes & Hfile).
    pose proof (printed_records_round io5 record (storage_path c1)) as Hshown.
    remember (show _ (show _ (print SAVED io5))) as io6 eqn:Eio6.
    clear Eio6.
    assert (Hsaved : exists fs0,
              readable_or_missing fs0 (storage_path collector)
              /\ _save c1 fs0 = (Ok tt, fs1)) by eauto.
    unfold input in Hrun. destruct (stdin io6) as [|answer rest] eqn:Ein;
      cbn [ask] in Hrun.
    + injection Hrun as <- <- <- <-. exists [record]. unfold loop_ends. cbn [forallb stdout stdin].
      rewrite Ht, printed_records_app, Hshown, P. cbn.
      rewrite app_nil_r. repeat split; auto.
    + destruct (lower_is_y (strip answer)); cbn [negb] in Hrun.
      * assert (Hr' : readable_or_missing fs1 (storage_path c1)).
        { unfold readable_or_missing. now rewrite Hp1, Hfile. }
        destruct (IH _ _ _ _ _ _ _ _ Hrun Hr')
          as (new & Q1 & Q2 & Q3 & Q4 & Q5).
        exists (record :: new). unfold loop_ends. cbn [forallb stdout] in *.
        rewrite Q1, Hp1, Ht, Q2, Q3, printed_records_app, Hshown, P.
        rewrite Hp1, Hr1 in Q5. rewrite Hp1 in Q4. cbn.
        rewrite app_nil_r, <- app_assoc. cbn [app].
        split; [reflexivity|]. split; [reflexivity|]. split; [reflexivity|].
        split; [intros q Hq; now rewrite Q4, Hframe by assumption|].
        destruct r as [[]|[| |e]].
        -- destruct Q5 as (_ & -> & Hs). rewrite <- app_assoc.
           repeat split; [discriminate|assumption].
        -- destruct Q5 as (Hin & Hrec & Hs).
           split; [assumption|]. split; [now rewrite Hrec, <- app_assoc|].
           right. destruct Hs as [[-> ->]|Hs]; [|assumption].
           exists fs. split; [assumption|].
           replace collector' with c1; [assumption|].
           apply collector_eq; [congruence|].
           now rewrite Hrec, app_nil_r, Hr1.
        -- exact Q5.
        -- destruct Q5 as [[last ->] Hs]. split.
           ++ exists last. now rewrite <- app_assoc.
           ++ right. destruct Hs as [(_ & _ & _ & d & Hd)|Hs]; [congruence|].
              exact Hs.
      * injection Hrun as <- <- <- <-. exists [record]. unfold loop_ends.
        cbn [forallb stdout stdin print show].
        rewrite Ht, !printed_records_app, Hshown, P. cbn.
        rewrite !app_nil_r. repeat split; auto; discriminate.
  - injection Hrun as <- <- <- <-. exists []. unfold loop_ends. rewrite app_nil_r.
    repeat split; auto.
    + exists record. now rewrite Hr1.
    + destruct Ho as [(-> & -> & d & Hd)|(-> & Hfile)]; [left|right]; eauto.
Qed.

(** The loop ends: no round goes without reading a line. *)
Lemma run_cli_loop_fuel fuel : forall collector clock io fs,
  (length (stdin io) < fuel)%nat ->
  run_cli_loop fuel collector clock io fs <> None.
Proof.
  induction fuel as [|fuel IH]; intros collector clock io fs Hl; [lia|].
  cbn [run_cli_loop].
  destruct (_prompt NAME_PROMPT py_str false io) as [[name|e] io1] eqn:E1;
    cbn [ask]; [|discriminate].
  destruct (_prompt_returned _ _ _ _ _ _ E1) as [L1 _].
  destruct (_prompt AGE_PROMPT py_int false io1) as [[age|e] io2] eqn:E2;
    cbn [ask]; [|discriminate].
  destruct (_prompt_returned _ _ _ _ _ _ E2) as [L2 _].
  destruct (_prompt EMAIL_PROMPT py_str false io2) as [[email|e] io3] eqn:E3;
    cbn [ask]; [|discriminate].
  destruct (_prompt_returned _ _ _ _ _ _ E3) as [L3 _].
  destruct (_prompt PHONE_PROMPT py_str false io3) as [[phone|e] io4] eqn:E4;
    cbn [ask]; [|discriminate].
  destruct (_prompt_returned _ _ _ _ _ _ E4) as [L4 _].
  destruct (_prompt NOTES_PROMPT py_str true io4) as [[notes|e] io5] eqn:E5;
    cbn [ask]; [|discriminate].
  destruct (_prompt_returned _ _ _ _ _ _ E5) as [L5 _].
  destruct (add_record collector (clock O) _ _ _ _ _ fs) as [[[record|err] c1] fs1];
    [|discriminate].
  unfold input. cbn [stdin show print].
  destruct (stdin io5) as [|answer rest] eqn:Ein; cbn [ask]; [discriminate|].
  destruct (lower_is_y (strip answer)); cbn [negb]; [|discriminate].
  apply IH. cbn [stdin length] in *. lia.
Qed.

(** [run_cli] in terms of its loop, on storage that loads. *)
Lemma run_cli_loaded path clock io fs before r io' fs' :
  run_cli path clock io fs = Some (r, io', fs') ->
  __init__ path fs = Ok before ->
  readable_or_missing fs (storage_path before)
  /\ storage_path before = path
  /\ exists collector',
       run_cli_loop (S (length (stdin io))) before clock (print HEADING io) fs
       = Some (r, collector', io', fs').
Proof.
  unfold run_cli. intros H Ei. rewrite Ei in H.
  rewrite (init_storage_path _ _ _ Ei).
  split; [exact (init_ok_readable _ _ _ Ei)|]. split; [reflexivity|].
  destruct (run_cli_loop _ _ _ _ _) as [[[[r1 c1] io1] fs1]|]; [|discriminate].
  injection H as <- <- <-. eauto.
Qed.

(** ** The properties of [_prompt] and [run_cli] *)

(** X5. [_prompt] asks until a line is accepted: on input that begins with
    lines it rejects (blank ones when empty input is not allowed, ones that
    [cast] refuses) followed by a line whose stripped text [cast] accepts,
    it returns the cast of that text, has shown the prompt once for every
    line read and a complaint after every rejected line, and leaves the
    lines after the accepted one unread. *)
Theorem prompt_asks_until_accepted {A} prompt (cast : str -> option A)
  allow_empty skipped line rest out v :
  forallb (rejected cast allow_empty) skipped = true ->
  cast (strip line) = Some v ->
  (allow_empty = false -> strip line <> []) ->
  _prompt prompt cast allow_empty
    {| stdin := skipped ++ line :: rest; stdout := out |}
  = (Returned v,
     {| stdin := rest;
        stdout := out ++ asked_again prompt skipped ++ [Prompted prompt] |}).
Proof.
  intros Hs Hc Hn. unfold _prompt. cbn [stdin stdout].
  rewrite (_prompt_loop_skips _ _ _ _ _ _ Hs), _prompt_loop_accepted.
  - now rewrite Hc, <- app_assoc.
  - unfold rejected. destruct (strip line) as [|c t].
    + destruct allow_empty; [reflexivity|]. now destruct Hn.
    + now rewrite Hc.
Qed.

(** X6. Whatever [_prompt] returns is the cast of the stripped text of a
    line it read; that text is not empty unless empty input is allowed;
    every line read before it was rejected and the lines after it are left
    unread. *)
Theorem prompt_returns_cast_of_line {A} prompt (cast : str -> option A)
  allow_empty io v io' :
  _prompt prompt cast allow_empty io = (Returned v, io') ->
  exists skipped line,
    stdin io = skipped ++ line :: stdin io'
    /\ forallb (rejected cast allow_empty) skipped = true
    /\ cast (strip line) = Some v
    /\ (allow_empty = false -> strip line <> []).
Proof.
  unfold _prompt.
  destruct (_prompt_loop_reads prompt cast allow_empty (stdin io) (stdout io))
    as [[_ H]|(skipped & line & rest & H1 & H2 & H3 & H)];
    rewrite H; [discriminate|].
  destruct (rejected_false _ _ _ H3) as [_ Hn].
  destruct (cast (strip line)) as [v'|] eqn:Ec; [|discriminate].
  intros [= <- <-]. exists skipped, line. cbn [stdin]. auto.
Qed.

(** X7. [_prompt] ends with [EOFError] exactly when it rejects every line
    that is left of the input. *)
Theorem prompt_end_of_input {A} prompt (cast : str -> option A) allow_empty io :
  fst (_prompt prompt cast allow_empty io) = Raised EOFError
  <-> forallb (rejected cast allow_empty) (stdin io) = true.
Proof.
  unfold _prompt.
  destruct (_prompt_loop_reads prompt cast allow_empty (stdin io) (stdout io))
    as [[H1 H]|(skipped & line & rest & H1 & H2 & H3 & H)]; rewrite H; cbn [fst].
  - tauto.
  - rewrite H1, forallb_app. cbn [forallb]. rewrite H3, andb_false_r.
    split; [|discriminate]. now destruct (cast (strip line)).
Qed.

(** X8. [_prompt] catches the [ValueError] of [cast] except on empty input:
    a [ValueError] leaves [_prompt] exactly when empty input is allowed,
    [cast] refuses the empty string and, after lines that were rejected, a
    blank line is read. *)
Theorem prompt_value_error {A} prompt (cast : str -> option A) allow_empty io :
  fst (_prompt prompt cast allow_empty io) = Raised ValueError
  <-> allow_empty = true /\ cast [] = None
      /\ exists skipped line rest,
           stdin io = skipped ++ line :: rest
           /\ forallb (rejected cast allow_empty) skipped = true
           /\ strip line = [].
Proof.
  unfold _prompt. split.
  - destruct (_prompt_loop_reads prompt cast allow_empty (stdin io) (stdout io))
      as [[H1 H]|(skipped & line & rest & H1 & H2 & H3 & H)]; rewrite H;
      cbn [fst]; [discriminate|].
    destruct (rejected_false _ _ _ H3) as [Hn _].
    destruct (cast (strip line)) eqn:Ec; [discriminate|]. intros _.
    destruct (Hn eq_refl) as [-> Hs]. rewrite Hs in Ec. eauto 10.
  - intros (-> & Hc & skipped & line & rest & -> & Hs & Hl).
    rewrite (_prompt_loop_skips _ _ _ _ _ _ Hs), _prompt_loop_accepted.
    + now rewrite Hl, Hc.
    + unfold rejected. now rewrite Hl.
Qed.

(** X9. A line of nothing but whitespace counts as no input: when empty
    input is allowed [_prompt] answers it with [cast] of the empty string
    (whose [ValueError] it does not catch), and otherwise it prints that
    input is required and asks again. *)
Theorem prompt_blank_line {A} prompt (cast : str -> option A) allow_empty
  line rest out :
  forallb isspace line = true ->
  _prompt prompt cast allow_empty {| stdin := line :: rest; stdout := out |}
  = if allow_empty then
      (match cast [] with
       | Some v => Returned v
       | None => Raised ValueError
       end, {| stdin := rest; stdout := out ++ [Prompted prompt] |})
    else
      _prompt prompt cast allow_empty
        {| stdin := rest;
           stdout := out ++ [Prompted prompt; Printed INPUT_REQUIRED] |}.
Proof.
  intros Hb%strip_nil. unfold _prompt. cbn [stdin stdout].
  destruct allow_empty.
  - rewrite _prompt_loop_accepted; [now rewrite Hb|].
    unfold rejected. now rewrite Hb.
  - rewrite _prompt_loop_rejected; [|unfold rejected; now rewrite Hb].
    unfold complaint. now rewrite Hb.
Qed.

(** X10. A string that [_prompt] returns when empty input is not allowed is
    a line of the input without the whitespace around it: it is not empty
    and neither begins nor ends with whitespace. *)
Theorem prompt_str_is_trimmed prompt io v io' :
  _prompt prompt py_str false io = (Returned v, io') ->
  v <> [] /\ trimmed v = true
  /\ exists line, line ∈ stdin io /\ v = strip line.
Proof.
  unfold _prompt.
  destruct (_prompt_loop_reads prompt py_str false (stdin io) (stdout io))
    as [[_ H]|(skipped & line & rest & H1 & H2 & H3 & H)];
    rewrite H; [discriminate|].
  destruct (rejected_false _ _ _ H3) as [_ Hn]. cbn [py_str].
  intros [= <- <-]. split; [now apply Hn|]. split; [apply strip_trimmed|].
  exists line. split; [|reflexivity]. rewrite H1. set_solver.
Qed.

(** X11. [run_cli] ends on every input, and never with a [ValueError]: a
    malformed age is asked again, and [str] accepts the empty notes. *)
Theorem run_cli_ends path clock io fs :
  exists r io' fs',
    run_cli path clock io fs = Some (r, io', fs') /\ r <> Raised ValueError.
Proof.
  unfold run_cli. destruct (__init__ path fs) as [collector|e] eqn:Ei.
  - destruct (run_cli_loop _ collector clock (print HEADING io) fs)
      as [[[[r c'] io'] fs']|] eqn:El.
    + exists r, io', fs'. split; [reflexivity|].
      pose proof (init_ok_readable _ _ _ Ei) as Hr.
      rewrite <- (init_storage_path _ _ _ Ei) in Hr.
      destruct (run_cli_loop_ends _ _ _ _ _ _ _ _ _ El Hr)
        as (new & _ & _ & _ & _ & H).
      intros ->. exact H.
    + exfalso. revert El. apply run_cli_loop_fuel. cbn. lia.
  - eexists _, _, _. split; [reflexivity|discriminate].
Qed.

(** X12. One round of [run_cli] answered without a mistake and ended by an
    answer other than [y] or [Y]: the record is built from the stripped
    answers, saved and printed between the prompts and the messages of the
    source, in their order; [run_cli] returns and leaves the rest of the
    input unread. *)
Theorem run_cli_one_round path clock fs before out
  typed_name typed_age typed_email typed_phone typed_notes answer rest n fs' :
  let record :=
    {| name := PStr (strip typed_name); age := PInt n;
       email := PStr (strip typed_email);
       phone := PStr (strip typed_phone);
       notes := PStr (strip typed_notes);
       timestamp := PStr (isoformat (clock O)) |} in
  __init__ path fs = Ok before ->
  strip typed_name <> [] -> strip typed_age <> [] ->
  py_int (strip typed_age) = Some n ->
  strip typed_email <> [] -> strip typed_phone <> [] ->
  lower_is_y (strip answer) = false ->
  _save {| storage_path := path; records := records before ++ [record] |} fs
  = (Ok tt, fs') ->
  run_cli path clock
    {| stdin := typed_name :: typed_age :: typed_email :: typed_phone
                :: typed_notes :: answer :: rest;
       stdout := out |} fs
  = Some (Returned tt,
          {| stdin := rest;
             stdout := out ++ [Printed HEADING; Prompted NAME_PROMPT;
                               Prompted AGE_PROMPT; Prompted EMAIL_PROMPT;
                               Prompted PHONE_PROMPT; Prompted NOTES_PROMPT;
                               Printed SAVED; PrintedRecord record;
                               PrintedLocation path;
                               Prompted CONTINUE_PROMPT; Printed GOODBYE] |},
          fs').
Proof.
  intros record Hi Hname Hage Hint Hemail Hphone Hanswer Hsave.
  assert (Hacc : forall A (cast : str -> option A) ae line,
            (ae = false -> strip line <> []) -> cast (strip line) <> None ->
            rejected cast ae line = false).
  { intros A cast ae line H1 H2. unfold rejected.
    destruct (strip line) as [|c t].
    - destruct ae; [reflexivity|]. now destruct H1.
    - now destruct (cast (c :: t)). }
  unfold run_cli. rewrite Hi. cbn [stdin length run_cli_loop].
  unfold _prompt, print, show. cbn [stdin stdout].
  rewrite _prompt_loop_accepted by (apply Hacc; [auto|discriminate]).
  cbn [py_str ask stdin stdout].
  rewrite _prompt_loop_accepted by (apply Hacc; [auto|congruence]).
  rewrite Hint. cbn [ask stdin stdout].
  rewrite _prompt_loop_accepted by (apply Hacc; [auto|discriminate]).
  cbn [py_str ask stdin stdout].
  rewrite _prompt_loop_accepted by (apply Hacc; [auto|discriminate]).
  cbn [py_str ask stdin stdout].
  rewrite _prompt_loop_accepted by (apply Hacc; [discriminate|discriminate]).
  cbn [py_str ask stdin stdout].
  unfold add_record. fold record. rewrite (init_storage_path _ _ _ Hi).
  rewrite Hsave. cbn [bind storage_path]. unfold input.
  cbn [stdin stdout ask]. rewrite Hanswer. cbn [negb stdin stdout].
  repeat (rewrite <- app_assoc; cbn [app]). reflexivity.
Qed.

(** X13. When [run_cli] returns, at least one round was completed, and a
    fresh collector on the storage path loads the records that were there
    (strings and integers) followed by the records of the rounds, in order;
    these are the records that were printed, and each has a name, an email
    and a phone number that are trimmed and not empty, trimmed notes and an
    ISO-8601 timestamp. *)
Theorem run_cli_return_saves_session path clock io fs io' fs' before :
  run_cli path clock io fs = Some (Returned tt, io', fs') ->
  __init__ path fs = Ok before ->
  forallb flat_record (records before) = true ->
  exists new,
    new <> [] /\ forallb typed_in new = true
    /\ printed_records (stdout io') = printed_records (stdout io) ++ new
    /\ __init__ path fs'
       = Ok {| storage_path := path; records := records before ++ new |}.
Proof.
  intros H Ei Hflat.
  destruct (run_cli_loaded _ _ _ _ _ _ _ _ H Ei) as (Hr & Hp & c' & El).
  destruct (run_cli_loop_ends _ _ _ _ _ _ _ _ _ El Hr)
    as (new & Q1 & Q2 & Q3 & _ & Hne & Hrec & fs0 & Hr0 & Hs).
  exists new. rewrite printed_records_heading in Q3.
  repeat split; try assumption.
  rewrite <- Q1 in Hr0. rewrite <- Hp, <- Q1, <- Hrec.
  replace {| storage_path := storage_path c'; records := records c' |}
    with c' by now destruct c'.
  apply (save_then_load c' fs0 fs' Hr0); [|assumption].
  rewrite Hrec, forallb_app, Hflat. now apply typed_in_flat.
Qed.

(** X14. When the input ends in the middle of a session, [run_cli] ends with
    [EOFError] and the answers of the round under way are dropped: a fresh
    collector on the storage path loads the records that were there
    (strings and integers) followed by the records of the completed rounds,
    which are the records that were printed. *)
Theorem run_cli_end_of_input path clock io fs io' fs' before :
  run_cli path clock io fs = Some (Raised EOFError, io', fs') ->
  __init__ path fs = Ok before ->
  forallb flat_record (records before) = true ->
  stdin io' = []
  /\ exists new,
       forallb typed_in new = true
       /\ printed_records (stdout io') = printed_records (stdout io) ++ new
       /\ __init__ path fs'
          = Ok {| storage_path := path; records := records before ++ new |}.
Proof.
  intros H Ei Hflat.
  destruct (run_cli_loaded _ _ _ _ _ _ _ _ H Ei) as (Hr & Hp & c' & El).
  destruct (run_cli_loop_ends _ _ _ _ _ _ _ _ _ El Hr)
    as (new & Q1 & Q2 & Q3 & _ & Hin & Hrec & Hs).
  split; [assumption|]. exists new. rewrite printed_records_heading in Q3.
  repeat split; try assumption.
  destruct Hs as [[-> ->]|(fs0 & Hr0 & Hs)].
  - rewrite Ei, app_nil_r, <- Hp. now destruct before.
  - rewrite <- Q1 in Hr0. rewrite <- Hp, <- Q1, <- Hrec.
    replace {| storage_path := storage_path c'; records := records c' |}
      with c' by now destruct c'.
    apply (save_then_load c' fs0 fs' Hr0); [|assumption].
    rewrite Hrec, forallb_app, Hflat. now apply typed_in_flat.
Qed.


(** X16. [run_cli] reads and writes the storage path only: whatever the
    input and however it ends, every other path names what it named. *)
Theorem run_cli_touches_storage_only path clock io fs r io' fs' q :
  run_cli path clock io fs = Some (r, io', fs') ->
  q <> path -> fs' !! q = fs !! q.
Proof.
  intros H Hq. destruct (__init__ path fs) as [before|e0] eqn:Ei.
  - destruct (run_cli_loaded _ _ _ _ _ _ _ _ H Ei) as (Hr & Hp & c' & El).
    destruct (run_cli_loop_ends _ _ _ _ _ _ _ _ _ El Hr)
      as (new & _ & _ & _ & Hframe & _).
    apply Hframe. now rewrite Hp.
  - unfold run_cli in H. rewrite Ei in H. now injection H as _ _ <-.
Qed.

End ConsoleProperties.

(** * The properties on concrete storage *)

#[local] Existing Instance literal_floats.

(** ** The model on sample text *)

Example loads_scalars :
  json_loads (lit " [1, -20, 3.5e2, true, false, null, NaN] ")
  = Ok (PList [PInt 1; PInt (-20); PFloat (lit "3.5e2"); PBool true;
               PBool false; PNone; PFloat (lit "nan")]).
Proof. vm_compute. reflexivity. Qed.

Example loads_refuses :
  json_loads (lit "[1,]") = Raise JSONDecodeError
  /\ json_loads (lit "01") = Raise JSONDecodeError
  /\ json_loads (lit "[1] x") = Raise JSONDecodeError
  /\ json_loads (lit "") = Raise JSONDecodeError
  /\ json_loads (QUOTE :: lit "a" ++ [LF; QUOTE]) = Raise JSONDecodeError.
Proof. repeat split; vm_compute; reflexivity. Qed.

Example loads_escapes :
  json_loads (QUOTE :: lit "a\n\u00e9\ud83d\ude00\/" ++ [QUOTE])
  = Ok (PStr [97; 10; 233; 128512; 47]).
Proof. vm_compute. reflexivity. Qed.

Example loads_repeated_key :
  json_loads (lit "{" ++ quoted "a" ++ lit ": 1, " ++ quoted "b" ++ lit ": 2, "
              ++ quoted "a" ++ lit ": 3}")
  = Ok (PDict [(lit "a", PInt 3); (lit "b", PInt 2)]).
Proof. vm_compute. reflexivity. Qed.

Example dumps_nested :
  json_dumps (PList [PList []; PDict []; PList [PInt 0; PStr [233; 10]]])
  = lit "[" ++ [LF] ++ lit "  []," ++ [LF] ++ lit "  {}," ++ [LF]
    ++ lit "  [" ++ [LF] ++ lit "    0," ++ [LF]
    ++ lit "    " ++ [QUOTE; 233; BACKSLASH] ++ lit "n" ++ [QUOTE; LF]
    ++ lit "  ]" ++ [LF] ++ lit "]".
Proof. vm_compute. reflexivity. Qed.

Example utf8_examples :
  utf8_encode [233; 128512] = Some [195; 169; 240; 159; 152; 128]
  /\ utf8_encode [55296] = None
  /\ utf8_decode [192; 128] = None
  /\ utf8_decode [237; 160; 128] = None.
Proof. repeat split; vm_compute; reflexivity. Qed.

(** The scenario of the specification: with empty storage, the call returns
    the record of its five arguments and the time of the call, and the
    storage file then holds an array of one mapping with the six keys. *)
Example scenario :
  let '(outcome, self, fs) :=
    add_record empty_collector noon (PStr (lit "Somchai")) (PInt 30)
      (PStr (lit "s@example.com")) (PStr (lit "0812345678")) (PStr []) ∅ in
  outcome = Ok {| name := PStr (lit "Somchai"); age := PInt 30;
                  email := PStr (lit "s@example.com");
                  phone := PStr (lit "0812345678"); notes := PStr [];
                  timestamp := PStr (lit "2024-02-29T12:00:07") |}
  /\ read_text fs DEFAULT_STORAGE
     = Ok (lit "[" ++ [LF] ++ lit "  {" ++ [LF]
           ++ lit "    " ++ quoted "name" ++ lit ": " ++ quoted "Somchai"
           ++ lit "," ++ [LF]
           ++ lit "    " ++ quoted "age" ++ lit ": 30," ++ [LF]
           ++ lit "    " ++ quoted "email" ++ lit ": " ++ quoted "s@example.com"
           ++ lit "," ++ [LF]
           ++ lit "    " ++ quoted "phone" ++ lit ": " ++ quoted "0812345678"
           ++ lit "," ++ [LF]
           ++ lit "    " ++ quoted "notes" ++ lit ": " ++ [QUOTE; QUOTE]
           ++ lit "," ++ [LF]
           ++ lit "    " ++ quoted "timestamp" ++ lit ": "
           ++ quoted "2024-02-29T12:00:07" ++ [LF]
           ++ lit "  }" ++ [LF] ++ lit "]").
Proof. vm_compute. split; reflexivity. Qed.

(** ** The properties *)

(** C1 on the two example calls, starting with no file. *)
Lemma roundtrip_persistence_witness :
  __init__ DEFAULT_STORAGE (snd two_calls) = Ok (snd (fst two_calls))
  /\ forallb record_conforms (records (snd (fst two_calls))) = true.
Proof.
  apply (roundtrip_persistence [somchai; malee] DEFAULT_STORAGE ∅
           empty_collector (fst (fst two_calls)));
    vm_compute; reflexivity.
Defined.

(** C2 on the document of the specification, [[{"name": "x"}]]. *)
Lemma shape_mismatch_raises_witness :
  _load (F := literal_floats) DEFAULT_STORAGE (stored name_only_document)
  = Raise TypeError
  /\ __init__ (F := literal_floats) DEFAULT_STORAGE (stored name_only_document)
     = Raise TypeError.
Proof.
  apply (shape_mismatch_raises (F := literal_floats) DEFAULT_STORAGE
           (stored name_only_document) name_only_document
           [PDict [(lit "name", PStr (lit "x"))]]
           [(lit "name", PStr (lit "x"))]).
  - vm_compute. reflexivity.
  - vm_compute. reflexivity.
  - constructor.
  - left. exists (lit "age"). split; apply (bool_decide_unpack _); vm_compute;
      exact I.
Defined.






(** C6 on the two example calls. *)
Lemma append_only_growth_witness :
  length (records (snd (fst two_calls))) = 2%nat
  /\ forall i c, [somchai; malee] !! i = Some c ->
       exists r, records (snd (fst two_calls)) !! i = Some r
         /\ name r = arg_name c /\ age r = arg_age c /\ email r = arg_email c
         /\ phone r = arg_phone c /\ notes r = arg_notes c
         /\ fst (fst two_calls) !! i = Some (Ok r).
Proof.
  apply (append_only_growth DEFAULT_STORAGE [somchai; malee] ∅
           (fst (fst two_calls)) (snd (fst two_calls)) (snd two_calls));
    vm_compute; reflexivity.
Defined.

(** C7 on the collector after the two example calls, saved over a file with
    other content. *)
Lemma save_writes_document_witness :
  let self := snd (fst two_calls) in
  let fs := stored (lit "old content") in
  let fs' := snd (_save self fs) in
  (exists readable bytes,
     fs' = <[storage_path self := RegularFile readable true bytes]> fs
     /\ utf8_encode (document_text (records self)) = Some bytes)
  /\ (forall p, p <> storage_path self -> fs' !! p = fs !! p)
  /\ (forall s level,
        iterencode (PStr s) level = QUOTE :: flat_map escape_char s ++ [QUOTE])
  /\ (forall c, 128 <= c -> escape_char c = [c])
  /\ (forallb flat_record (records self) = true ->
      json_loads (document_text (records self))
      = Ok (PList (List.map asdict (records self)))).
Proof.
  cbv zeta.
  apply (save_writes_document (snd (fst two_calls)) (stored (lit "old content"))).
  vm_compute. reflexivity.
Defined.

(** C8 on a storage file that may not be written. *)
Lemma save_failure_keeps_record_witness :
  let self' := {| storage_path := DEFAULT_STORAGE;
                  records := [new_record somchai] |} in
  add_record empty_collector (at_time somchai) (arg_name somchai)
    (arg_age somchai) (arg_email somchai) (arg_phone somchai)
    (arg_notes somchai) (stored_read_only (lit "[]"))
  = (Raise PermissionError, self', stored_read_only (lit "[]"))
  /\ (__init__ DEFAULT_STORAGE (stored_read_only (lit "[]")) = Ok empty_collector ->
      __init__ DEFAULT_STORAGE (stored_read_only (lit "[]")) <> Ok self').
Proof.
  apply (save_failure_keeps_record empty_collector somchai
           (stored_read_only (lit "[]")) PermissionError);
    vm_compute; reflexivity.
Defined.

(** C9 on a mapping with an integer name, a string age and a float
    timestamp. *)
Lemma load_accepts_any_values_witness :
  exists rs,
    _load (F := literal_floats) DEFAULT_STORAGE (stored odd_types_document)
    = Ok rs
    /\ Forall2 (fun item r => exists d, item = PDict d /\ holds_fields d r)
         [asdict odd_types_record] rs.
Proof.
  apply (load_accepts_any_values (F := literal_floats) DEFAULT_STORAGE
           (stored odd_types_document) odd_types_document
           [asdict odd_types_record]).
  - vm_compute. reflexivity.
  - vm_compute. reflexivity.
  - repeat constructor. eexists. split; [reflexivity|].
    intros k. cbn [List.map fst]. reflexivity.
Defined.

(** C10 as stated fails: the empty JSON string and the empty JSON object are
    valid JSON and not arrays, and [_load] returns no records on them. *)
Lemma empty_string_loads_empty :
  json_loads [QUOTE; QUOTE] = Ok (PStr [])
  /\ is_array_of_mappings (PStr []) = false
  /\ _load DEFAULT_STORAGE (stored [QUOTE; QUOTE]) = Ok []
  /\ json_loads (lit "{}") = Ok (PDict [])
  /\ is_array_of_mappings (PDict []) = false
  /\ _load DEFAULT_STORAGE (stored (lit "{}")) = Ok [].
Proof. repeat split; vm_compute; reflexivity. Qed.

(** C10, amended, on a file with the number 42. *)
Lemma non_array_json_load_witness :
  _load (F := literal_floats) DEFAULT_STORAGE (stored (lit "42"))
  = Raise TypeError.
Proof.
  apply (non_array_json_load (F := literal_floats) DEFAULT_STORAGE
           (stored (lit "42")) (lit "42") (PInt 42));
    vm_compute; reflexivity.
Defined.

#[local] Existing Instance ascii_builtins.

(** ** The further properties on concrete storage and input *)


(** X2 on a collector with no record and a storage file that holds other
    text. *)
Lemma add_record_writes_memory_witness :
  new_record somchai = new_record somchai
  /\ __init__ DEFAULT_STORAGE (snd (somchai_on (stored (lit "not json"))))
     = Ok (snd (fst (somchai_on (stored (lit "not json")))))
  /\ records (snd (fst (somchai_on (stored (lit "not json")))))
     = [] ++ [new_record somchai].
Proof.
  apply (add_record_writes_memory empty_collector somchai
           (stored (lit "not json")) (new_record somchai)
           (snd (fst (somchai_on (stored (lit "not json")))))
           (snd (somchai_on (stored (lit "not json")))));
    vm_compute; reflexivity.
Defined.

(** X3 on the collector and the storage of the two example calls: the call
    with the lone surrogate fails and the two records are gone from
    storage. *)
Lemma add_record_unencodable_empties_storage_witness :
  records {| storage_path := DEFAULT_STORAGE;
             records := records (snd (fst two_calls))
                        ++ [new_record lone_surrogate] |}
  = records (snd (fst two_calls)) ++ [new_record lone_surrogate]
  /\ __init__ DEFAULT_STORAGE (stored [])
     = Ok {| storage_path := DEFAULT_STORAGE; records := [] |}.
Proof.
  apply (add_record_unencodable_empties_storage (snd (fst two_calls))
           (at_time lone_surrogate) (arg_name lone_surrogate)
           (arg_age lone_surrogate) (arg_email lone_surrogate)
           (arg_phone lone_surrogate) (arg_notes lone_surrogate)
           (snd two_calls)
           {| storage_path := DEFAULT_STORAGE;
              records := records (snd (fst two_calls))
                         ++ [new_record lone_surrogate] |}
           (stored []));
    vm_compute; [reflexivity|exact I].
Defined.

(** X4 on a storage file that may not be written: after the first call has
    failed, two more fail alike. *)
Lemma failed_save_fails_again_witness :
  fst (fst (add_records (snd (fst (somchai_on (stored_read_only (lit "[]")))))
              [malee; somchai] (stored_read_only (lit "[]"))))
  = List.map (fun _ => Raise PermissionError) [malee; somchai]
  /\ snd (add_records (snd (fst (somchai_on (stored_read_only (lit "[]")))))
            [malee; somchai] (stored_read_only (lit "[]")))
     = stored_read_only (lit "[]")
  /\ records (snd (fst (add_records
                          (snd (fst (somchai_on (stored_read_only (lit "[]")))))
                          [malee; somchai] (stored_read_only (lit "[]")))))
     = records (snd (fst (somchai_on (stored_read_only (lit "[]")))))
       ++ List.map new_record [malee; somchai].
Proof.
  apply (failed_save_fails_again empty_collector (at_time somchai)
           (arg_name somchai) (arg_age somchai) (arg_email somchai)
           (arg_phone somchai) (arg_notes somchai)
           (stored_read_only (lit "[]")) PermissionError
           (snd (fst (somchai_on (stored_read_only (lit "[]")))))
           (stored_read_only (lit "[]")) [malee; somchai]);
    vm_compute; reflexivity.
Defined.

(** X5 on the answers to the prompt for the age. *)
Lemma prompt_asks_until_accepted_witness :
  _prompt AGE_PROMPT py_int false
    {| stdin := [lit " "; lit "thirty"] ++ lit " 30 " :: [lit "x"];
       stdout := [] |}
  = (Returned 30,
     {| stdin := [lit "x"];
        stdout := [] ++ asked_again AGE_PROMPT [lit " "; lit "thirty"]
                  ++ [Prompted AGE_PROMPT] |}).
Proof.
  apply (prompt_asks_until_accepted AGE_PROMPT py_int false
           [lit " "; lit "thirty"] (lit " 30 ") [lit "x"] [] 30).
  - vm_compute. reflexivity.
  - vm_compute. reflexivity.
  - intros _. vm_compute. discriminate.
Defined.

(** X6 on the same answers. *)
Lemma prompt_returns_cast_of_line_witness :
  exists skipped line,
    stdin age_answers
    = skipped ++ line :: stdin (snd (_prompt AGE_PROMPT py_int false age_answers))
    /\ forallb (rejected py_int false) skipped = true
    /\ py_int (strip line) = Some 30
    /\ (false = false -> strip line <> []).
Proof.
  apply (prompt_returns_cast_of_line AGE_PROMPT py_int false age_answers 30
           (snd (_prompt AGE_PROMPT py_int false age_answers))).
  vm_compute. reflexivity.
Defined.

(** X9 on a line of a space, a tab, a no-break space and an ideographic
    space. *)
Lemma prompt_blank_line_witness :
  _prompt NAME_PROMPT py_str false
    {| stdin := [32; 9; 160; 12288] :: [lit "Somchai"]; stdout := [] |}
  = _prompt NAME_PROMPT py_str false
      {| stdin := [lit "Somchai"];
         stdout := [] ++ [Prompted NAME_PROMPT; Printed INPUT_REQUIRED] |}.
Proof.
  apply (prompt_blank_line NAME_PROMPT py_str false [32; 9; 160; 12288]
           [lit "Somchai"] []).
  vm_compute. reflexivity.
Defined.

(** X10 on a blank line followed by a name with spaces around it. *)
Lemma prompt_str_is_trimmed_witness :
  lit "Somchai" <> [] /\ trimmed (lit "Somchai") = true
  /\ exists line, line ∈ stdin (typing [" "; " Somchai "; "30"])
                  /\ lit "Somchai" = strip line.
Proof.
  apply (prompt_str_is_trimmed NAME_PROMPT (typing [" "; " Somchai "; "30"])
           (lit "Somchai")
           (snd (_prompt NAME_PROMPT py_str false
                   (typing [" "; " Somchai "; "30"])))).
  vm_compute. reflexivity.
Defined.

(** X12 on the round of the scenario, with no file in storage and a line
    left unread. *)
Lemma run_cli_one_round_witness :
  run_cli DEFAULT_STORAGE at_noon
    {| stdin := lit " Somchai " :: lit "30" :: lit "s@example.com"
                :: lit "0812345678" :: [] :: lit "n" :: [lit "unread"];
       stdout := [] |} ∅
  = Some (Returned tt,
          {| stdin := [lit "unread"];
             stdout := [] ++ [Printed HEADING; Prompted NAME_PROMPT;
                              Prompted AGE_PROMPT; Prompted EMAIL_PROMPT;
                              Prompted PHONE_PROMPT; Prompted NOTES_PROMPT;
                              Printed SAVED;
                              PrintedRecord (new_record somchai);
                              PrintedLocation DEFAULT_STORAGE;
                              Prompted CONTINUE_PROMPT; Printed GOODBYE] |},
          snd (somchai_on ∅)).
Proof.
  apply (run_cli_one_round DEFAULT_STORAGE at_noon ∅ empty_collector []
           (lit " Somchai ") (lit "30") (lit "s@example.com")
           (lit "0812345678") [] (lit "n") [lit "unread"] 30
           (snd (somchai_on ∅)));
    vm_compute; first [reflexivity|discriminate].
Defined.

(** X13 on the session of one round, with no file in storage. *)
Lemma run_cli_return_saves_session_witness :
  exists new,
    new <> [] /\ forallb typed_in new = true
    /\ printed_records (stdout (console_after one_round ∅))
       = printed_records (stdout (typing one_round)) ++ new
    /\ __init__ DEFAULT_STORAGE (storage_after one_round ∅)
       = Ok {| storage_path := DEFAULT_STORAGE;
               records := records empty_collector ++ new |}.
Proof.
  apply (run_cli_return_saves_session DEFAULT_STORAGE at_noon
           (typing one_round) ∅ (console_after one_round ∅)
           (storage_after one_round ∅) empty_collector);
    vm_compute; reflexivity.
Defined.

(** X14 on the session of two rounds that ends with the input. *)
Lemma run_cli_end_of_input_witness :
  stdin (console_after two_rounds ∅) = []
  /\ exists new,
       forallb typed_in new = true
       /\ printed_records (stdout (console_after two_rounds ∅))
          = printed_records (stdout (typing two_rounds)) ++ new
       /\ __init__ DEFAULT_STORAGE (storage_after two_rounds ∅)
          = Ok {| storage_path := DEFAULT_STORAGE;
                  records := records empty_collector ++ new |}.
Proof.
  apply (run_cli_end_of_input DEFAULT_STORAGE at_noon (typing two_rounds) ∅
           (console_after two_rounds ∅) (storage_after two_rounds ∅)
           empty_collector);
    vm_compute; reflexivity.
Defined.


(** X16 on the session of one round and another file in storage. *)
Lemma run_cli_touches_storage_only_witness :
  storage_after one_round {[ "other.json" := RegularFile true true [1; 2] ]}
    !! "other.json"
  = ({[ "other.json" := RegularFile true true [1; 2] ]} : filesystem)
      !! "other.json".
Proof.
  apply (run_cli_touches_storage_only DEFAULT_STORAGE at_noon
           (typing one_round)
           {[ "other.json" := RegularFile true true [1; 2] ]}
           (Returned tt)
           (console_after one_round
              {[ "other.json" := RegularFile true true [1; 2] ]})
           (storage_after one_round
              {[ "other.json" := RegularFile true true [1; 2] ]})
           "other.json").
  - vm_compute. reflexivity.
  - discriminate.
Defined.
